(** * AggressorStrategy: a shallow embedding and its verified properties

    The development embeds [Assignment 3/Lance/AggressorStrategy.cpp]: the
    strategy that walks a character one cell towards the human player and
    then attacks one adjacent character.

    Layout: machine integers, the collaborating classes (Map, Character,
    Global), the strategy's methods, then the theorems. *)

From Stdlib Require Import ZArith Ascii Bool Lia.
From stdpp Require Import base option list gmap.

Local Open Scope char_scope.
Local Open Scope Z_scope.

(** ** C++ [int]

    Values of type [int] are integers of 32 bits in two's complement; the
    arithmetic of the source is written with its wrap-around. *)
Module Int.

Definition min_int : Z := -2147483648.
Definition max_int : Z := 2147483647.
Definition modulus : Z := 4294967296.

Definition in_range (z : Z) : Prop := min_int <= z <= max_int.

Definition wrap (z : Z) : Z := (z - min_int) mod modulus + min_int.

Definition add (a b : Z) : Z := wrap (a + b).
Definition sub (a b : Z) : Z := wrap (a - b).
Definition abs (a : Z) : Z := wrap (Z.abs a).

End Int.

(** ** Undefined behaviour as an outcome

    The methods return [void] and report no error.  Two things can go wrong
    while they run, and the embedding makes both explicit. *)
Inductive fault : Type :=
| WildPointer      (* a never-assigned [Character*] is dereferenced *)
| NoSuchCharacter. (* the [Character&] denotes no entry of the registry *)

Inductive outcome (A : Type) : Type :=
| Done (a : A)
| Undefined (f : fault).

Arguments Done {A} a.
Arguments Undefined {A} f.

#[export] Instance outcome_ret : MRet outcome := fun A a => Done a.
#[export] Instance outcome_bind : MBind outcome := fun A B k r =>
  match r with
  | Done a => k a
  | Undefined f => Undefined f
  end.

(** ** Map

    Modelled from the spec: [Map.h] is not part of the sources.  The spec
    gives its interface: [getCell(x,y) -> symbol], [setCell(x,y,symbol)],
    [clearCell(x,y)], [getMapWidth()], [getMapLength()] and
    [getHumanPosition() -> (x,y)]; a cleared cell holds the empty symbol, a
    blank.  The cells are a finite map from coordinates to symbols; a
    coordinate that was never written reads as a blank. *)
Record Map : Type := mkMap {
  cells : gmap (Z * Z) ascii;
  mapWidth : Z;
  mapLength : Z;
  humanPosition : Z * Z
}.

Definition getCell (m : Map) (x y : Z) : ascii :=
  default " " (cells m !! (x, y)).

Definition setCell (x y : Z) (s : ascii) (m : Map) : Map :=
  mkMap (<[(x, y) := s]> (cells m)) (mapWidth m) (mapLength m) (humanPosition m).

Definition clearCell (x y : Z) (m : Map) : Map := setCell x y " " m.

Definition getMapWidth (m : Map) : Z := mapWidth m.
Definition getMapLength (m : Map) : Z := mapLength m.
Definition getHumanPosition (m : Map) : Z * Z := humanPosition m.

(** [v[k]] on the two-element vector that [getHumanPosition] returns. *)
Definition vec_at (v : Z * Z) (k : nat) : Z :=
  match k with
  | O => fst v
  | _ => snd v
  end.

(** ** Character

    Modelled from the spec: [Character.h] is not part of the sources.  A
    character has a position, hit points, a symbol on the map and a
    strategy that can be replaced at run time. *)
Inductive Strategy : Type :=
| HumanPlayer
| Aggressor
| Friendly.

Record Character : Type := mkCharacter {
  currentPositionX : Z;
  currentPositionY : Z;
  hitPoints : Z;
  typeOnMap : ascii;
  strategy : Strategy
}.

Definition getCurrentPositionX (c : Character) : Z := currentPositionX c.
Definition getCurrentPositionY (c : Character) : Z := currentPositionY c.
Definition getHitPoints (c : Character) : Z := hitPoints c.
Definition getTypeOnMap (c : Character) : ascii := typeOnMap c.

Definition setCurrentPositionX (x : Z) (c : Character) : Character :=
  mkCharacter x (currentPositionY c) (hitPoints c) (typeOnMap c) (strategy c).
Definition setCurrentPositionY (y : Z) (c : Character) : Character :=
  mkCharacter (currentPositionX c) y (hitPoints c) (typeOnMap c) (strategy c).
Definition setHitPoints (h : Z) (c : Character) : Character :=
  mkCharacter (currentPositionX c) (currentPositionY c) h (typeOnMap c) (strategy c).
Definition setTypeOnMap (s : ascii) (c : Character) : Character :=
  mkCharacter (currentPositionX c) (currentPositionY c) (hitPoints c) s (strategy c).
Definition setStrategy (s : Strategy) (c : Character) : Character :=
  mkCharacter (currentPositionX c) (currentPositionY c) (hitPoints c) (typeOnMap c) s.

(** ** The world the strategy runs in

    Modelled from the spec: [Global.h] is not part of the sources.
    [Global::gameCharacters] is the ordered registry of all characters of
    the session, so the [Character&] a method receives denotes an entry of
    it, here by its index: an attack that writes through a pointer into the
    registry is seen through every reference to that entry.  [console]
    records what [displayCharacter] rendered. *)
Record World : Type := mkWorld {
  theMap : Map;
  gameCharacters : list Character;
  console : list Character
}.

Definition character (i : nat) (w : World) : outcome Character :=
  match gameCharacters w !! i with
  | Some c => Done c
  | None => Undefined NoSuchCharacter
  end.

Definition withMap (m : Map) (w : World) : World :=
  mkWorld m (gameCharacters w) (console w).

Definition withCharacter (i : nat) (c : Character) (w : World) : World :=
  mkWorld (theMap w) (<[i := c]> (gameCharacters w)) (console w).

Definition displayCharacter (c : Character) (w : World) : World :=
  mkWorld (theMap w) (gameCharacters w) (console w ++ [c]).

(** ** The methods of AggressorStrategy *)
Module AggressorStrategy.

Definition shortestDistanceToHuman
    (charPosX charPosY humanPosX humanPosY : Z) : Z :=
  Int.add (Int.abs (Int.sub charPosX humanPosX))
          (Int.abs (Int.sub charPosY humanPosY)).

Definition moveUp (i : nat) (w : World) : outcome World :=
  c ← character i w;
  let m := theMap w in
  let currentPosition := (getCurrentPositionX c, getCurrentPositionY c) in
  let humanPosition := (vec_at (getHumanPosition m) 0, vec_at (getHumanPosition m) 1) in
  let m := clearCell (fst currentPosition) (snd currentPosition) m in
  let currentPosition := (Int.sub (fst currentPosition) 1, snd currentPosition) in
  let m := setCell (fst currentPosition) (snd currentPosition) (getTypeOnMap c) m in
  Done (withCharacter i (setCurrentPositionX (fst currentPosition) c) (withMap m w)).

Definition moveDown (i : nat) (w : World) : outcome World :=
  c ← character i w;
  let m := theMap w in
  let currentPosition := (getCurrentPositionX c, getCurrentPositionY c) in
  let humanPosition := (vec_at (getHumanPosition m) 0, vec_at (getHumanPosition m) 1) in
  let m := clearCell (fst currentPosition) (snd currentPosition) m in
  let currentPosition := (Int.add (fst currentPosition) 1, snd currentPosition) in
  let m := setCell (fst currentPosition) (snd currentPosition) (getTypeOnMap c) m in
  Done (withCharacter i (setCurrentPositionX (fst currentPosition) c) (withMap m w)).

Definition moveLeft (i : nat) (w : World) : outcome World :=
  c ← character i w;
  let m := theMap w in
  let currentPosition := (getCurrentPositionX c, getCurrentPositionY c) in
  let humanPosition := (vec_at (getHumanPosition m) 0, vec_at (getHumanPosition m) 1) in
  let m := clearCell (fst currentPosition) (snd currentPosition) m in
  let currentPosition := (fst currentPosition, Int.sub (snd currentPosition) 1) in
  let m := setCell (fst currentPosition) (snd currentPosition) (getTypeOnMap c) m in
  Done (withCharacter i (setCurrentPositionY (snd currentPosition) c) (withMap m w)).

Definition moveRight (i : nat) (w : World) : outcome World :=
  c ← character i w;
  let m := theMap w in
  let currentPosition := (getCurrentPositionX c, getCurrentPositionY c) in
  let humanPosition := (vec_at (getHumanPosition m) 0, vec_at (getHumanPosition m) 1) in
  let m := clearCell (fst currentPosition) (snd currentPosition) m in
  let currentPosition := (fst currentPosition, Int.add (snd currentPosition) 1) in
  let m := setCell (fst currentPosition) (snd currentPosition) (getTypeOnMap c) m in
  Done (withCharacter i (setCurrentPositionY (snd currentPosition) c) (withMap m w)).

Definition moveCloserToHuman (i : nat) (w : World) : outcome World :=
  c ← character i w;
  let m := theMap w in
  let charPosX := getCurrentPositionX c in
  let charPosY := getCurrentPositionY c in
  let humanPosX := vec_at (getHumanPosition m) 0 in
  let humanPosY := vec_at (getHumanPosition m) 0 in
  let originalDistance :=
    shortestDistanceToHuman charPosX charPosY humanPosX humanPosY in
  if negb (originalDistance =? 0) then
    if (0 <? charPosX)
       && Ascii.eqb (getCell m (Int.sub charPosX 1) charPosY) " "
       && (shortestDistanceToHuman (Int.sub charPosX 1) charPosY humanPosX humanPosY
             <=? originalDistance)
    then moveUp i w
    else if (0 <? charPosY)
       && Ascii.eqb (getCell m charPosX (Int.sub charPosY 1)) " "
       && (shortestDistanceToHuman charPosX (Int.sub charPosY 1) humanPosX humanPosY
             <=? originalDistance)
    then moveLeft i w
    else if (charPosX <? Int.sub (getMapWidth m) 1)
       && Ascii.eqb (getCell m (Int.add charPosX 1) charPosY) " "
       && (shortestDistanceToHuman (Int.add charPosX 1) charPosY humanPosX humanPosY
             <=? originalDistance)
    then moveDown i w
    else if (charPosY <? Int.sub (getMapLength m) 1)
       && Ascii.eqb (getCell m charPosX (Int.add charPosY 1)) " "
       && (shortestDistanceToHuman charPosX (Int.add charPosY 1) humanPosX humanPosY
             <=? originalDistance)
    then moveRight i w
    else Done w
  else Done w.

(** The loop of [attackCharacterAtPosition]: [charBeingAttacked] is a
    pointer into the registry, an index here, and [None] while it has not
    been assigned.  The scan visits every entry from [i] on. *)
Fixpoint findCharacterAt (chars : list Character) (i : nat)
    (charPosX charPosY : Z) (charBeingAttacked : option nat) : option nat :=
  match chars with
  | [] => charBeingAttacked
  | ch :: rest =>
      findCharacterAt rest (S i) charPosX charPosY
        (if (getCurrentPositionX ch =? charPosX)
            && (getCurrentPositionY ch =? charPosY)
         then Some i
         else charBeingAttacked)
  end.

(** The two statements after the loop, on the character pointed to. *)
Definition sufferAttack (charBeingAttacked : Character) : Character :=
  let charBeingAttacked :=
    if Ascii.eqb (getTypeOnMap charBeingAttacked) "C"
    then setStrategy Aggressor (setTypeOnMap "O" charBeingAttacked)
    else charBeingAttacked in
  let tempHP := getHitPoints charBeingAttacked in
  setHitPoints (Int.sub tempHP 1) charBeingAttacked.

Definition attackCharacterAtPosition (i : nat) (charPosX charPosY : Z)
    (w : World) : outcome World :=
  match findCharacterAt (gameCharacters w) 0 charPosX charPosY None with
  | None => Undefined WildPointer
  | Some j =>
      charBeingAttacked ← character j w;
      Done (withCharacter j (sufferAttack charBeingAttacked) w)
  end.

Definition canAttackOneAdjacentCharacter (i : nat) (w : World) : outcome World :=
  c ← character i w;
  let m := theMap w in
  let charPosX := getCurrentPositionX c in
  let charPosY := getCurrentPositionY c in
  if (0 <? charPosX)
     && (Ascii.eqb (getCell m (Int.sub charPosX 1) charPosY) "S"
         || Ascii.eqb (getCell m (Int.sub charPosX 1) charPosY) "C"
         || Ascii.eqb (getCell m (Int.sub charPosX 1) charPosY) "O")
  then attackCharacterAtPosition i (Int.sub charPosX 1) charPosY w
  else if (0 <? charPosY)
     && (Ascii.eqb (getCell m charPosX (Int.sub charPosY 1)) "S"
         || Ascii.eqb (getCell m charPosX (Int.sub charPosY 1)) "C"
         || Ascii.eqb (getCell m charPosX (Int.sub charPosY 1)) "O")
  then attackCharacterAtPosition i charPosX (Int.sub charPosY 1) w
  else if (charPosX <? Int.sub (getMapWidth m) 1)
     && (Ascii.eqb (getCell m (Int.add charPosX 1) charPosY) "S"
         || Ascii.eqb (getCell m (Int.add charPosX 1) charPosY) "C"
         || Ascii.eqb (getCell m (Int.add charPosX 1) charPosY) "O")
  then attackCharacterAtPosition i (Int.add charPosX 1) charPosY w
  else if (charPosY <? Int.sub (getMapLength m) 1)
     && (Ascii.eqb (getCell m charPosX (Int.sub charPosY 1)) "S"
         || Ascii.eqb (getCell m charPosX (Int.sub charPosY 1)) "C"
         || Ascii.eqb (getCell m charPosX (Int.sub charPosY 1)) "O")
  then attackCharacterAtPosition i charPosX (Int.add charPosY 1) w
  else Done w.

Definition execute (i : nat) (w : World) : outcome World :=
  c ← character i w;
  if 0 <? getHitPoints c then
    let w := displayCharacter c w in
    w ← moveCloserToHuman i w;
    canAttackOneAdjacentCharacter i w
  else Done w.

End AggressorStrategy.

Import AggressorStrategy.

(** ** Notions the statements use *)

(** The symbols the scan of the neighbours looks for. *)
Definition attackable (s : ascii) : bool :=
  Ascii.eqb s "S" || Ascii.eqb s "C" || Ascii.eqb s "O".

(** The recorded position of a character. *)
Definition position (c : Character) : Z * Z :=
  (getCurrentPositionX c, getCurrentPositionY c).

(** The character stands at the cell [(x, y)]. *)
Definition standsAt (x y : Z) (c : Character) : Prop :=
  getCurrentPositionX c = x /\ getCurrentPositionY c = y.

(** Entry [j] of the registry, the character [t], is the last entry in
    registry order that stands at [(x, y)]. *)
Definition lastAt (x y : Z) (chars : list Character) (j : nat) (t : Character) : Prop :=
  chars !! j = Some t /\ standsAt x y t /\
  forall (k : nat) (c : Character),
    (j < k)%nat -> chars !! k = Some c -> ~ standsAt x y c.

(** What an observer of the registry sees of the friendly/hostile state of
    each character: its symbol and its strategy. *)
Definition allegiance (c : Character) : ascii * Strategy :=
  (getTypeOnMap c, strategy c).

Definition allegiances (w : World) : list (ascii * Strategy) :=
  allegiance <$> gameCharacters w.

(** The cell [(x, y)] is a cell of the grid. *)
Definition inBounds (m : Map) (x y : Z) : Prop :=
  0 <= x < getMapWidth m /\ 0 <= y < getMapLength m.

Definition inBoundsb (m : Map) (x y : Z) : bool :=
  (0 <=? x) && (x <? getMapWidth m) && (0 <=? y) && (y <? getMapLength m).

(** Width and length of the grid are values of type [int]. *)
Definition intSized (m : Map) : Prop :=
  Int.in_range (getMapWidth m) /\ Int.in_range (getMapLength m).

(** The distance the movement heuristic computes for the cell [(x, y)]. *)
Definition computedDistance (m : Map) (x y : Z) : Z :=
  shortestDistanceToHuman x y
    (vec_at (getHumanPosition m) 0) (vec_at (getHumanPosition m) 0).

(** The walk as the specification words it: the four neighbours of
    [(x, y)] in the order up, left, down, right; a neighbour can be entered
    when it is a cell of the grid, blank, and not farther from the human
    by the computed distance; the first such neighbour is entered. *)
Definition candidates (x y : Z) : list (Z * Z) :=
  [(x - 1, y); (x, y - 1); (x + 1, y); (x, y + 1)].

Definition admissible (m : Map) (x y : Z) (p : Z * Z) : bool :=
  inBoundsb m (fst p) (snd p)
  && Ascii.eqb (getCell m (fst p) (snd p)) " "
  && (computedDistance m (fst p) (snd p) <=? computedDistance m x y).

Definition firstAdmissible (m : Map) (x y : Z) : option (Z * Z) :=
  List.find (admissible m x y) (candidates x y).

(** The world once entry [i], the character [c], has left its cell for the
    cell [p]: the old cell is cleared, the symbol is written at [p] and
    the entry records [p]. *)
Definition relocate (i : nat) (c : Character) (p : Z * Z) (w : World) : World :=
  withCharacter i (setCurrentPositionY (snd p) (setCurrentPositionX (fst p) c))
    (withMap
       (setCell (fst p) (snd p) (getTypeOnMap c)
          (clearCell (getCurrentPositionX c) (getCurrentPositionY c) (theMap w)))
       w).

Definition walk (i : nat) (c : Character) (w : World) : World :=
  match firstAdmissible (theMap w) (getCurrentPositionX c) (getCurrentPositionY c) with
  | Some p => relocate i c p w
  | None => w
  end.

Definition walkEnd (c : Character) (w : World) : Z * Z :=
  match firstAdmissible (theMap w) (getCurrentPositionX c) (getCurrentPositionY c) with
  | Some p => p
  | None => position c
  end.

(** The walk towards a target as the specification words it, with no part
    of the source in it: the Manhattan distance is taken in the integers,
    the four neighbours are tried in the order up, left, down, right, and
    the first one that is a cell of the grid, blank, and not farther from
    the target [(tx, ty)] is entered. *)
Definition manhattan (x y tx ty : Z) : Z := Z.abs (x - tx) + Z.abs (y - ty).

Definition nearer (tx ty : Z) (m : Map) (x y : Z) (p : Z * Z) : bool :=
  inBoundsb m (fst p) (snd p)
  && Ascii.eqb (getCell m (fst p) (snd p)) " "
  && (manhattan (fst p) (snd p) tx ty <=? manhattan x y tx ty).

Definition stepTowards (tx ty : Z) (m : Map) (x y : Z) : option (Z * Z) :=
  List.find (nearer tx ty m x y) (candidates x y).

Definition walkTowards (tx ty : Z) (i : nat) (c : Character) (w : World) : World :=
  match stepTowards tx ty (theMap w)
          (getCurrentPositionX c) (getCurrentPositionY c) with
  | Some p => relocate i c p w
  | None => w
  end.

(** The same world with the human recorded at [p]. *)
Definition withHumanAt (p : Z * Z) (w : World) : World :=
  withMap (mkMap (cells (theMap w)) (mapWidth (theMap w)) (mapLength (theMap w)) p) w.

Definition outcome_map {A B : Type} (f : A -> B) (r : outcome A) : outcome B :=
  match r with
  | Done a => Done (f a)
  | Undefined u => Undefined u
  end.

(** Every cell that shows a character the strategy can attack, 'S', 'C' or
    'O', is the recorded position of an entry of the registry. *)
Definition registered (w : World) : Prop :=
  forall x y : Z,
    attackable (getCell (theMap w) x y) = true ->
    exists (k : nat) (c : Character),
      gameCharacters w !! k = Some c /\ standsAt x y c.

(** Every entry of the registry stands on a cell of the grid. *)
Definition allOnGrid (w : World) : Prop :=
  forall (k : nat) (c : Character),
    gameCharacters w !! k = Some c ->
    inBounds (theMap w) (getCurrentPositionX c) (getCurrentPositionY c).

(** The invariant of the data model: no two entries of the registry record
    the same cell, and the cell an entry records shows its symbol. *)
Definition onePerCell (w : World) : Prop :=
  forall (j k : nat) (cj ck : Character),
    gameCharacters w !! j = Some cj -> gameCharacters w !! k = Some ck ->
    position cj = position ck -> j = k.

Definition symbolsInPlace (w : World) : Prop :=
  forall (j : nat) (cj : Character),
    gameCharacters w !! j = Some cj ->
    getCell (theMap w) (getCurrentPositionX cj) (getCurrentPositionY cj)
    = getTypeOnMap cj.

Definition consistent (w : World) : Prop := onePerCell w /\ symbolsInPlace w.

(** No entry of the registry other than entry [i] records the cell [p]. *)
Definition freeFor (i : nat) (w : World) (p : Z * Z) : Prop :=
  forall (k : nat) (ck : Character),
    k <> i -> gameCharacters w !! k = Some ck -> position ck <> p.

(** An operation keeps the invariant whenever it completes. *)
Definition keepsConsistent (op : World -> outcome World) : Prop :=
  forall w w' : World, consistent w -> op w = Done w' -> consistent w'.

(** ** Sample worlds *)

Definition grid (l : list (Z * Z * ascii)) : gmap (Z * Z) ascii := list_to_map l.

(** The case the specification names: the human at (2,7), an aggressor at
    (2,5) on a grid of ten by ten. *)
Definition pursuer : Character := mkCharacter 2 5 3 "O" Aggressor.
Definition chase : World :=
  mkWorld (mkMap (grid [((2, 5), "O")]) 10 10 (2, 7)) [pursuer] [].

(** An aggressor at (1,1) whose only neighbour is a hostile character at
    (1,2), the fourth cell of the scan; the human is recorded so that the
    computed distance is zero and the aggressor does not walk. *)
Definition sentinel : Character := mkCharacter 1 1 3 "O" Aggressor.
Definition prey : Character := mkCharacter 1 2 1 "S" Aggressor.
Definition skirmish : World :=
  mkWorld (mkMap (grid [((1, 1), "O"); ((1, 2), "S")]) 3 3 (1, 0))
          [sentinel; prey] [].

(** The scenario of the specification: a character at (3,3) and a hostile
    one at (2,3) with one hit point. *)
Definition duellist : Character := mkCharacter 3 3 2 "O" Aggressor.
Definition hostile : Character := mkCharacter 2 3 1 "S" Aggressor.
Definition duel : World :=
  mkWorld (mkMap (grid [((3, 3), "O"); ((2, 3), "S")]) 6 6 (3, 3))
          [duellist; hostile] [].

(** The same with a friendly character at (2,3). *)
Definition friend : Character := mkCharacter 2 3 4 "C" Friendly.
Definition parley : World :=
  mkWorld (mkMap (grid [((3, 3), "O"); ((2, 3), "C")]) 6 6 (3, 3))
          [duellist; friend] [].

(** A registry in which two entries record the cell (2,3). *)
Definition crowd : World :=
  mkWorld (mkMap (grid [((3, 3), "O"); ((2, 3), "C")]) 6 6 (3, 3))
          [duellist; hostile; friend] [].

(** An aggressor in the corner (0,0) of the grid. *)
Definition cornered : Character := mkCharacter 0 0 3 "O" Aggressor.
Definition corner : World :=
  mkWorld (mkMap (grid [((0, 0), "O")]) 6 6 (3, 3)) [cornered] [].

(** A character without hit points. *)
Definition fallen : Character := mkCharacter 3 3 0 "O" Aggressor.
Definition graveyard : World :=
  mkWorld (mkMap (grid [((3, 3), "O"); ((2, 3), "S")]) 6 6 (0, 0))
          [fallen; hostile] [].

(** ** Notions of the further properties *)

(** The four neighbours of [(x, y)] as the source computes them, in the
    order in which both the walk and the scan go through them. *)
Definition neighbours (x y : Z) : list (Z * Z) :=
  [(Int.sub x 1, y); (x, Int.sub y 1); (Int.add x 1, y); (x, Int.add y 1)].

(** Two worlds that no call of the interface tells apart: the same
    registry, console, dimensions and human position, and every cell reads
    the same. *)
Definition sameView (w w' : World) : Prop :=
  gameCharacters w' = gameCharacters w /\
  console w' = console w /\
  getMapWidth (theMap w') = getMapWidth (theMap w) /\
  getMapLength (theMap w') = getMapLength (theMap w) /\
  getHumanPosition (theMap w') = getHumanPosition (theMap w) /\
  forall a b : Z, getCell (theMap w') a b = getCell (theMap w) a b.

(** One call after the other. *)
Definition andThen (f g : World -> outcome World) (w : World) : outcome World :=
  w1 ← f w; g w1.

(** The map shows the characters the scan looks for on cells of the grid
    only. *)
Definition shownOnGridOnly (m : Map) : Prop :=
  forall a b : Z, attackable (getCell m a b) = true -> inBounds m a b.

(** The cell the scan of the source ends up attacking: the first of the
    three neighbours up, left, down that is a cell of the grid and shows a
    character. *)
Definition visible (m : Map) (p : Z * Z) : bool :=
  inBoundsb m (fst p) (snd p) && attackable (getCell m (fst p) (snd p)).

Definition scanTarget (m : Map) (x y : Z) : option (Z * Z) :=
  List.find (visible m) [(x - 1, y); (x, y - 1); (x + 1, y)].

(** A world in which the characters do not stack: no two entries record
    the same cell, every entry stands on the grid of a map whose
    dimensions are values of type [int], no symbol is a blank and the cell
    an entry records is not blank. *)
Definition orderly (w : World) : Prop :=
  onePerCell w /\ allOnGrid w /\ intSized (theMap w) /\
  forall (k : nat) (ck : Character),
    gameCharacters w !! k = Some ck ->
    getTypeOnMap ck <> " " /\
    getCell (theMap w) (getCurrentPositionX ck) (getCurrentPositionY ck) <> " ".

(** The characters of [order] take their turn one after the other. *)
Fixpoint turns (order : list nat) (w : World) : outcome World :=
  match order with
  | [] => Done w
  | i :: rest => w1 ← execute i w; turns rest w1
  end.

(** [n] walks of entry [i], one after the other. *)
Fixpoint walks (n : nat) (i : nat) (w : World) : outcome World :=
  match n with
  | O => Done w
  | S n' => w1 ← moveCloserToHuman i w; walks n' i w1
  end.


(** Every cell but the one the character stands on is blank. *)
Definition clearAround (c : Character) (m : Map) : Prop :=
  forall a b : Z, (a, b) <> position c -> getCell m a b = " ".

(** The distance, in steps, from the character to the point [(h, h)]. *)
Definition gapTo (h : Z) (c : Character) : Z :=
  Z.abs (getCurrentPositionX c - h) + Z.abs (getCurrentPositionY c - h).

(** A grid of six by six, blank but for an aggressor at (5,1); the human
    is recorded at (2,4). *)
Definition walker : Character := mkCharacter 5 1 3 "O" Aggressor.
Definition field : World :=
  mkWorld (mkMap (grid [((5, 1), "O")]) 6 6 (2, 4)) [walker] [].

(** ** Machine integers *)

Lemma wrap_in_range (z : Z) : Int.in_range z -> Int.wrap z = z.
Proof.
  unfold Int.in_range, Int.wrap, Int.min_int, Int.max_int, Int.modulus.
  intros Hz. rewrite Z.mod_small; lia.
Qed.

Lemma sub_exact (a b : Z) : Int.in_range (a - b) -> Int.sub a b = a - b.
Proof. apply wrap_in_range. Qed.

Lemma add_exact (a b : Z) : Int.in_range (a + b) -> Int.add a b = a + b.
Proof. apply wrap_in_range. Qed.

Lemma abs_exact (a : Z) : Int.in_range (Z.abs a) -> Int.abs a = Z.abs a.
Proof. apply wrap_in_range. Qed.

(** ** The map *)

Lemma getCell_setCell_same (m : Map) (x y : Z) (s : ascii) :
  getCell (setCell x y s m) x y = s.
Proof. unfold getCell, setCell; simpl. by rewrite lookup_insert_eq. Qed.

Lemma getCell_setCell_other (m : Map) (x y x' y' : Z) (s : ascii) :
  (x, y) <> (x', y') ->
  getCell (setCell x y s m) x' y' = getCell m x' y'.
Proof. intros Hne. unfold getCell, setCell; simpl. by rewrite lookup_insert_ne. Qed.

Lemma getCell_clearCell_same (m : Map) (x y : Z) :
  getCell (clearCell x y m) x y = " ".
Proof. apply getCell_setCell_same. Qed.

Lemma getCell_clearCell_other (m : Map) (x y x' y' : Z) :
  (x, y) <> (x', y') ->
  getCell (clearCell x y m) x' y' = getCell m x' y'.
Proof. apply getCell_setCell_other. Qed.

(** ** The registry *)

Lemma character_Done (i : nat) (w : World) (c : Character) :
  gameCharacters w !! i = Some c -> character i w = Done c.
Proof. unfold character. by intros ->. Qed.

Lemma standsAt_test (x y : Z) (c : Character) :
  (getCurrentPositionX c =? x) && (getCurrentPositionY c =? y) = true
  <-> standsAt x y c.
Proof. unfold standsAt. rewrite andb_true_iff, !Z.eqb_eq. tauto. Qed.

Lemma standsAt_test_false (x y : Z) (c : Character) :
  (getCurrentPositionX c =? x) && (getCurrentPositionY c =? y) = false
  <-> ~ standsAt x y c.
Proof. rewrite <- standsAt_test. destruct (_ && _); split; congruence. Qed.

(** ** The scan of the registry *)

Lemma findCharacterAt_nobody (chars : list Character) (i : nat) (x y : Z)
    (acc : option nat) :
  (forall (k : nat) (c : Character), chars !! k = Some c -> ~ standsAt x y c) ->
  findCharacterAt chars i x y acc = acc.
Proof.
  revert i acc. induction chars as [|ch rest IH]; intros i acc Hno; simpl.
  - reflexivity.
  - rewrite IH.
    + pose proof (Hno 0%nat ch eq_refl) as Hch.
      apply standsAt_test_false in Hch. by rewrite Hch.
    + intros k c Hk. apply (Hno (S k) c Hk).
Qed.

Lemma findCharacterAt_last (chars : list Character) (i j : nat) (x y : Z)
    (acc : option nat) (t : Character) :
  lastAt x y chars j t ->
  findCharacterAt chars i x y acc = Some (i + j)%nat.
Proof.
  revert i j acc. induction chars as [|ch rest IH]; intros i j acc (Hj & Ht & Hlater).
  - discriminate.
  - destruct j as [|j]; simpl in *.
    + injection Hj as ->. apply standsAt_test in Ht. rewrite Ht.
      rewrite findCharacterAt_nobody.
      * f_equal. lia.
      * intros k c Hk. apply (Hlater (S k) c); [lia | exact Hk].
    + rewrite (IH (S i) j _).
      * f_equal. lia.
      * split; [exact Hj | split; [exact Ht |]].
        intros k c Hlt Hk. apply (Hlater (S k) c); [lia | exact Hk].
Qed.

Lemma findCharacterAt_inv (chars : list Character) (i n : nat) (x y : Z)
    (acc : option nat) :
  findCharacterAt chars i x y acc = Some n ->
  (acc = Some n /\
   forall (k : nat) (c : Character), chars !! k = Some c -> ~ standsAt x y c)
  \/ exists (j : nat) (t : Character), n = (i + j)%nat /\ lastAt x y chars j t.
Proof.
  revert i acc. induction chars as [|ch rest IH]; intros i acc Hfind; simpl in *.
  - left. split; [exact Hfind | intros k c Hk; discriminate].
  - apply IH in Hfind as [[Hacc Hno] | (j & t & -> & Hj & Ht & Hlater)].
    + destruct ((getCurrentPositionX ch =? x) && (getCurrentPositionY ch =? y))
        eqn:Hch.
      * right. exists 0%nat, ch. injection Hacc as <-.
        split; [lia |]. split; [reflexivity |].
        split; [by apply standsAt_test |].
        intros [|k] c Hlt Hk; [lia |]. apply (Hno k c Hk).
      * left. split; [exact Hacc |].
        intros [|k] c Hk; simpl in Hk.
        -- injection Hk as <-. by apply standsAt_test_false.
        -- apply (Hno k c Hk).
    + right. exists (S j), t. split; [lia |].
      split; [exact Hj | split; [exact Ht |]].
      intros [|k] c Hlt Hk; [lia |]. apply (Hlater k c); [lia | exact Hk].
Qed.

Lemma findCharacterAt_assigned (chars : list Character) (i a : nat) (x y : Z) :
  findCharacterAt chars i x y (Some a) <> None.
Proof.
  revert i a. induction chars as [|ch rest IH]; intros i a; simpl.
  - discriminate.
  - destruct (_ && _); apply IH.
Qed.

Lemma findCharacterAt_None (chars : list Character) (i : nat) (x y : Z) :
  findCharacterAt chars i x y None = None <->
  forall (k : nat) (c : Character), chars !! k = Some c -> ~ standsAt x y c.
Proof.
  split.
  - revert i. induction chars as [|ch rest IH]; intros i Hfind k c Hk.
    + discriminate.
    + simpl in Hfind.
      destruct ((getCurrentPositionX ch =? x) && (getCurrentPositionY ch =? y))
        eqn:Hch.
      * by apply findCharacterAt_assigned in Hfind.
      * destruct k as [|k]; simpl in Hk.
        -- injection Hk as <-. by apply standsAt_test_false.
        -- apply (IH (S i) Hfind k c Hk).
  - intros Hno. by apply findCharacterAt_nobody.
Qed.

Lemma lastAt_exists (chars : list Character) (x y : Z) (k : nat) (c : Character) :
  chars !! k = Some c -> standsAt x y c ->
  exists (j : nat) (t : Character), lastAt x y chars j t /\ (k <= j)%nat.
Proof.
  intros Hk Hc.
  destruct (findCharacterAt chars 0 x y None) as [n|] eqn:Hfind.
  - apply findCharacterAt_inv in Hfind as [[Hacc _] | (j & t & _ & Hlast)];
      [discriminate |].
    exists j, t. split; [exact Hlast |].
    destruct (decide (k <= j)%nat) as [|Hlt]; [assumption |].
    destruct Hlast as (_ & _ & Hlater).
    exfalso. apply (Hlater k c); [lia | exact Hk | exact Hc].
  - exfalso. eapply findCharacterAt_None; eauto.
Qed.

Lemma lastAt_unique (chars : list Character) (x y : Z) (j j' : nat)
    (t t' : Character) :
  lastAt x y chars j t -> lastAt x y chars j' t' -> j = j' /\ t = t'.
Proof.
  intros (Hj & Ht & Hlater) (Hj' & Ht' & Hlater').
  assert (j = j') as <-.
  { destruct (Nat.lt_trichotomy j j') as [Hlt | [Heq | Hgt]]; [| exact Heq |].
    - exfalso. apply (Hlater j' t' Hlt Hj' Ht').
    - exfalso. apply (Hlater' j t Hgt Hj Ht). }
  split; [reflexivity | congruence].
Qed.

(** ** The attack *)

Lemma sufferAttack_position (t : Character) :
  getCurrentPositionX (sufferAttack t) = getCurrentPositionX t /\
  getCurrentPositionY (sufferAttack t) = getCurrentPositionY t.
Proof. unfold sufferAttack. destruct (Ascii.eqb _ _); split; reflexivity. Qed.

Lemma sufferAttack_standsAt (x y : Z) (t : Character) :
  standsAt x y (sufferAttack t) <-> standsAt x y t.
Proof.
  unfold standsAt. destruct (sufferAttack_position t) as [-> ->]. tauto.
Qed.

Lemma sufferAttack_hitPoints (t : Character) :
  getHitPoints (sufferAttack t) = Int.sub (getHitPoints t) 1.
Proof. unfold sufferAttack. destruct (Ascii.eqb _ _); reflexivity. Qed.

Lemma sufferAttack_friendly (t : Character) :
  getTypeOnMap t = "C" -> allegiance (sufferAttack t) = ("O", Aggressor).
Proof. unfold sufferAttack. intros ->. reflexivity. Qed.

Lemma sufferAttack_other (t : Character) :
  getTypeOnMap t <> "C" -> allegiance (sufferAttack t) = allegiance t.
Proof.
  unfold sufferAttack. intros Hne.
  destruct (Ascii.eqb _ _) eqn:Heq; [| reflexivity].
  apply Ascii.eqb_eq in Heq. contradiction.
Qed.

Lemma sufferAttack_allegiance_twice (t : Character) :
  allegiance (sufferAttack (sufferAttack t)) = allegiance (sufferAttack t).
Proof.
  apply sufferAttack_other.
  unfold sufferAttack.
  destruct (Ascii.eqb (getTypeOnMap t) "C") eqn:Heq; simpl.
  - discriminate.
  - intros Hc. apply Ascii.eqb_neq in Heq. contradiction.
Qed.

Lemma lastAt_after_attack (chars : list Character) (x y : Z) (j : nat)
    (t : Character) :
  lastAt x y chars j t ->
  lastAt x y (<[j := sufferAttack t]> chars) j (sufferAttack t).
Proof.
  intros (Hj & Ht & Hlater).
  assert (j < length chars)%nat as Hlen by (by eapply lookup_lt_Some).
  split; [by apply list_lookup_insert_eq |].
  split; [by apply sufferAttack_standsAt |].
  intros k c Hlt Hk. rewrite list_lookup_insert_ne in Hk by lia.
  by apply (Hlater k c).
Qed.

Lemma attack_lastAt (w : World) (i j : nat) (x y : Z) (t : Character) :
  lastAt x y (gameCharacters w) j t ->
  attackCharacterAtPosition i x y w = Done (withCharacter j (sufferAttack t) w).
Proof.
  intros Hlast. unfold attackCharacterAtPosition.
  rewrite (findCharacterAt_last _ 0 j x y None t Hlast). simpl.
  destruct Hlast as (Hj & _). by rewrite (character_Done _ _ _ Hj).
Qed.

Lemma attack_nobody (w : World) (i : nat) (x y : Z) :
  (forall (k : nat) (c : Character),
     gameCharacters w !! k = Some c -> ~ standsAt x y c) ->
  attackCharacterAtPosition i x y w = Undefined WildPointer.
Proof.
  intros Hno. unfold attackCharacterAtPosition.
  by rewrite (proj2 (findCharacterAt_None _ 0 x y) Hno).
Qed.

Lemma attack_somebody (w : World) (i k : nat) (x y : Z) (c : Character) :
  gameCharacters w !! k = Some c -> standsAt x y c ->
  exists (j : nat) (t : Character),
    lastAt x y (gameCharacters w) j t /\ (k <= j)%nat /\
    attackCharacterAtPosition i x y w = Done (withCharacter j (sufferAttack t) w).
Proof.
  intros Hk Hc.
  destruct (lastAt_exists _ x y k c Hk Hc) as (j & t & Hlast & Hle).
  exists j, t. split; [exact Hlast |]. split; [exact Hle |].
  by apply attack_lastAt.
Qed.

Lemma attack_Done_inv (w w' : World) (i : nat) (x y : Z) :
  attackCharacterAtPosition i x y w = Done w' ->
  exists (j : nat) (t : Character),
    lastAt x y (gameCharacters w) j t /\ w' = withCharacter j (sufferAttack t) w.
Proof.
  intros Hrun.
  destruct (findCharacterAt (gameCharacters w) 0 x y None) as [n|] eqn:Hfind.
  - apply findCharacterAt_inv in Hfind as [[Hacc _] | (j & t & _ & Hlast)];
      [discriminate |].
    exists j, t. split; [exact Hlast |].
    rewrite (attack_lastAt w i j x y t Hlast) in Hrun. congruence.
  - unfold attackCharacterAtPosition in Hrun. rewrite Hfind in Hrun. discriminate.
Qed.

(** ** Theorems on the attack *)

(** C4. Every attack on a cell where an entry of the registry stands takes
    exactly one hit point from the attacked character, whatever its symbol,
    its strategy and its hit points: the new value is the [int] subtraction
    [hitPoints - 1], which is the integer [hitPoints - 1] for every [int]
    above the least one. *)
Theorem attack_takes_one_hit_point
    (w : World) (i k : nat) (x y : Z) (c : Character) :
  gameCharacters w !! k = Some c -> standsAt x y c ->
  exists (j : nat) (t t' : Character) (w' : World),
    lastAt x y (gameCharacters w) j t /\
    attackCharacterAtPosition i x y w = Done w' /\
    gameCharacters w' !! j = Some t' /\
    getHitPoints t' = Int.sub (getHitPoints t) 1 /\
    (Int.min_int < getHitPoints t <= Int.max_int ->
     getHitPoints t' = getHitPoints t - 1).
Proof.
  intros Hk Hc.
  destruct (attack_somebody w i k x y c Hk Hc) as (j & t & Hlast & _ & Hrun).
  exists j, t, (sufferAttack t), (withCharacter j (sufferAttack t) w).
  split; [exact Hlast |]. split; [exact Hrun |].
  destruct Hlast as (Hj & _).
  split.
  { simpl. apply list_lookup_insert_eq. by eapply lookup_lt_Some. }
  split; [apply sufferAttack_hitPoints |].
  intros Hrange. rewrite sufferAttack_hitPoints. apply sub_exact.
  unfold Int.in_range, Int.min_int, Int.max_int in *. lia.
Qed.

(** C5. An attack on a character whose symbol is the friendly mark 'C' sets
    its symbol to the hostile mark 'O' and its strategy to the aggressor
    strategy; an attack on any other symbol leaves symbol and strategy as
    they are; and a second attack on the same cell leaves every symbol and
    every strategy as the first attack left them. *)
Theorem friendly_turns_hostile_once
    (w : World) (i k : nat) (x y : Z) (c : Character) :
  gameCharacters w !! k = Some c -> standsAt x y c ->
  exists (j : nat) (t t1 : Character) (w1 w2 : World),
    lastAt x y (gameCharacters w) j t /\
    attackCharacterAtPosition i x y w = Done w1 /\
    gameCharacters w1 !! j = Some t1 /\
    (getTypeOnMap t = "C" -> allegiance t1 = ("O", Aggressor)) /\
    (getTypeOnMap t <> "C" -> allegiance t1 = allegiance t) /\
    attackCharacterAtPosition i x y w1 = Done w2 /\
    allegiances w2 = allegiances w1.
Proof.
  intros Hk Hc.
  destruct (attack_somebody w i k x y c Hk Hc) as (j & t & Hlast & _ & Hrun).
  pose proof (lastAt_after_attack _ x y j t Hlast) as Hlast1.
  set (w1 := withCharacter j (sufferAttack t) w) in *.
  exists j, t, (sufferAttack t), w1,
    (withCharacter j (sufferAttack (sufferAttack t)) w1).
  assert (j < length (gameCharacters w))%nat as Hlen.
  { destruct Hlast as (Hj & _). by eapply lookup_lt_Some. }
  split; [exact Hlast |]. split; [exact Hrun |].
  split; [simpl; by apply list_lookup_insert_eq |].
  split; [apply sufferAttack_friendly |].
  split; [apply sufferAttack_other |].
  split; [by apply attack_lastAt |].
  unfold allegiances; simpl.
  rewrite list_insert_insert_eq, !list_fmap_insert.
  by rewrite sufferAttack_allegiance_twice.
Qed.

(** C10. When entries of the registry stand at the attacked cell, the scan
    runs over the whole registry and the attack falls on the last of them
    in registry order.  That entry is attacked: it loses one hit point,
    keeps its position, and turns from 'C' to 'O' with the aggressor
    strategy or keeps its symbol and strategy.  Every other entry, the
    earlier matches among them, is left as it was, and so is the map. *)
Theorem attack_hits_last_match
    (w : World) (i k : nat) (x y : Z) (c : Character) :
  gameCharacters w !! k = Some c -> standsAt x y c ->
  exists (j : nat) (t t' : Character) (w' : World),
    lastAt x y (gameCharacters w) j t /\ (k <= j)%nat /\
    attackCharacterAtPosition i x y w = Done w' /\
    gameCharacters w' !! j = Some t' /\
    getHitPoints t' = Int.sub (getHitPoints t) 1 /\
    (Int.min_int < getHitPoints t <= Int.max_int ->
     getHitPoints t' = getHitPoints t - 1) /\
    position t' = position t /\
    allegiance t'
    = (if Ascii.eqb (getTypeOnMap t) "C" then ("O", Aggressor) else allegiance t) /\
    (forall n : nat, n <> j -> gameCharacters w' !! n = gameCharacters w !! n) /\
    length (gameCharacters w') = length (gameCharacters w) /\
    theMap w' = theMap w.
Proof.
  intros Hk Hc.
  destruct (attack_somebody w i k x y c Hk Hc) as (j & t & Hlast & Hle & Hrun).
  exists j, t, (sufferAttack t), (withCharacter j (sufferAttack t) w).
  split; [exact Hlast |]. split; [exact Hle |]. split; [exact Hrun |].
  destruct Hlast as (Hj & _).
  split; [simpl; apply list_lookup_insert_eq; by eapply lookup_lt_Some |].
  split; [apply sufferAttack_hitPoints |].
  split.
  { intros Hrange. rewrite sufferAttack_hitPoints. apply sub_exact.
    unfold Int.in_range, Int.min_int, Int.max_int in *. lia. }
  split.
  { unfold position. by destruct (sufferAttack_position t) as [-> ->]. }
  split.
  { destruct (Ascii.eqb (getTypeOnMap t) "C") eqn:Hsym.
    - apply sufferAttack_friendly. by apply Ascii.eqb_eq.
    - apply sufferAttack_other. by apply Ascii.eqb_neq. }
  split; [intros n Hn; simpl; by apply list_lookup_insert_ne |].
  split; [simpl; apply length_insert | reflexivity].
Qed.

(** C6. A character whose hit points are zero or less is not run: [execute]
    returns the world it was given, with the character, the map, the
    registry and the console as they were. *)
Theorem dead_character_is_inert (w : World) (i : nat) (c : Character) :
  gameCharacters w !! i = Some c -> getHitPoints c <= 0 ->
  execute i w = Done w.
Proof.
  intros Hi Hdead. unfold execute.
  rewrite (character_Done _ _ _ Hi). simpl.
  destruct (0 <? getHitPoints c) eqn:Hhp; [| reflexivity].
  apply Z.ltb_lt in Hhp. lia.
Qed.

(** ** The movement primitives *)

Lemma moveUp_relocate (w : World) (i : nat) (c : Character) :
  gameCharacters w !! i = Some c ->
  moveUp i w =
  Done (relocate i c (Int.sub (getCurrentPositionX c) 1, getCurrentPositionY c) w).
Proof.
  intros Hi. unfold moveUp. rewrite (character_Done _ _ _ Hi).
  destruct c; reflexivity.
Qed.

Lemma moveDown_relocate (w : World) (i : nat) (c : Character) :
  gameCharacters w !! i = Some c ->
  moveDown i w =
  Done (relocate i c (Int.add (getCurrentPositionX c) 1, getCurrentPositionY c) w).
Proof.
  intros Hi. unfold moveDown. rewrite (character_Done _ _ _ Hi).
  destruct c; reflexivity.
Qed.

Lemma moveLeft_relocate (w : World) (i : nat) (c : Character) :
  gameCharacters w !! i = Some c ->
  moveLeft i w =
  Done (relocate i c (getCurrentPositionX c, Int.sub (getCurrentPositionY c) 1) w).
Proof.
  intros Hi. unfold moveLeft. rewrite (character_Done _ _ _ Hi).
  destruct c; reflexivity.
Qed.

Lemma moveRight_relocate (w : World) (i : nat) (c : Character) :
  gameCharacters w !! i = Some c ->
  moveRight i w =
  Done (relocate i c (getCurrentPositionX c, Int.add (getCurrentPositionY c) 1) w).
Proof.
  intros Hi. unfold moveRight. rewrite (character_Done _ _ _ Hi).
  destruct c; reflexivity.
Qed.

Lemma relocate_character (w : World) (i : nat) (c : Character) (p : Z * Z) :
  gameCharacters w !! i = Some c ->
  exists c' : Character,
    gameCharacters (relocate i c p w) !! i = Some c' /\ position c' = p /\
    getTypeOnMap c' = getTypeOnMap c /\ getHitPoints c' = getHitPoints c.
Proof.
  intros Hi. eexists. split.
  - simpl. apply list_lookup_insert_eq. by eapply lookup_lt_Some.
  - by destruct p.
Qed.

(** ** The distance the heuristic computes *)

Ltac int_arith :=
  unfold Int.in_range, Int.min_int, Int.max_int in *; lia.

Lemma distance_nonneg_ints (x y h : Z) :
  0 <= x <= Int.max_int -> 0 <= y <= Int.max_int -> 0 <= h <= Int.max_int ->
  shortestDistanceToHuman x y h h = Int.wrap (Z.abs (x - h) + Z.abs (y - h)).
Proof.
  intros Hx Hy Hh. unfold shortestDistanceToHuman, Int.add.
  rewrite !sub_exact by int_arith. rewrite !abs_exact by int_arith.
  reflexivity.
Qed.

Lemma wrap_zero (s : Z) : 0 <= s < Int.modulus -> Int.wrap s = 0 -> s = 0.
Proof.
  unfold Int.wrap, Int.min_int, Int.modulus. intros Hs Hw.
  destruct (Z_lt_le_dec s 2147483648) as [Hlt | Hge].
  - rewrite Z.mod_small in Hw; lia.
  - replace (s - -2147483648) with (s - 2147483648 + 1 * 4294967296) in Hw by lia.
    rewrite Z.mod_add in Hw by lia. rewrite Z.mod_small in Hw; lia.
Qed.

Lemma distance_zero (x y h : Z) :
  0 <= x <= Int.max_int -> 0 <= y <= Int.max_int -> 0 <= h <= Int.max_int ->
  shortestDistanceToHuman x y h h = 0 -> x = h /\ y = h.
Proof.
  intros Hx Hy Hh Hd. rewrite distance_nonneg_ints in Hd by assumption.
  apply wrap_zero in Hd; unfold Int.modulus, Int.max_int in *; lia.
Qed.

Lemma distance_beside (x y h : Z) :
  0 <= x <= Int.max_int -> 0 <= y <= Int.max_int -> 0 <= h <= Int.max_int ->
  Z.abs (x - h) + Z.abs (y - h) = 1 ->
  shortestDistanceToHuman x y h h = 1.
Proof.
  intros Hx Hy Hh Hone. rewrite distance_nonneg_ints by assumption.
  rewrite Hone. reflexivity.
Qed.

Lemma inBoundsb_true (m : Map) (x y : Z) :
  inBoundsb m x y = true <-> inBounds m x y.
Proof.
  unfold inBoundsb, inBounds.
  rewrite !andb_true_iff, !Z.leb_le, !Z.ltb_lt. tauto.
Qed.

Lemma admissible_true (m : Map) (x y : Z) (p : Z * Z) :
  admissible m x y p = true <->
  inBounds m (fst p) (snd p) /\ getCell m (fst p) (snd p) = " " /\
  computedDistance m (fst p) (snd p) <= computedDistance m x y.
Proof.
  unfold admissible.
  rewrite !andb_true_iff, inBoundsb_true, Ascii.eqb_eq, Z.leb_le. tauto.
Qed.

(** At distance zero no neighbour can be entered: the test
    [originalDistance != 0] of the source cuts nothing off. *)
Lemma nothing_admissible_at_zero (m : Map) (x y : Z) (p : Z * Z) :
  intSized m -> inBounds m x y ->
  0 <= vec_at (getHumanPosition m) 0 <= Int.max_int ->
  computedDistance m x y = 0 ->
  In p (candidates x y) ->
  admissible m x y p = false.
Proof.
  intros [HW HL] [Hx Hy] Hh Hzero Hin.
  destruct (admissible m x y p) eqn:Hadm; [| reflexivity].
  exfalso. apply admissible_true in Hadm as ([Hpx Hpy] & _ & Hle).
  rewrite Hzero in Hle. unfold computedDistance in *.
  apply distance_zero in Hzero as [-> ->]; [| int_arith ..].
  rewrite distance_beside in Hle; [lia | int_arith .. |].
  simpl in Hin. destruct Hin as [<- | [<- | [<- | [<- | []]]]]; simpl; lia.
Qed.

(** ** The walk of the source is the walk of the specification *)

Lemma inBoundsb_up (m : Map) (x y : Z) :
  inBounds m x y -> inBoundsb m (x - 1) y = (0 <? x).
Proof.
  intros Hin. apply eq_iff_eq_true. rewrite inBoundsb_true, Z.ltb_lt.
  unfold inBounds in *. lia.
Qed.

Lemma inBoundsb_left (m : Map) (x y : Z) :
  inBounds m x y -> inBoundsb m x (y - 1) = (0 <? y).
Proof.
  intros Hin. apply eq_iff_eq_true. rewrite inBoundsb_true, Z.ltb_lt.
  unfold inBounds in *. lia.
Qed.

Lemma inBoundsb_down (m : Map) (x y : Z) :
  inBounds m x y -> inBoundsb m (x + 1) y = (x <? getMapWidth m - 1).
Proof.
  intros Hin. apply eq_iff_eq_true. rewrite inBoundsb_true, Z.ltb_lt.
  unfold inBounds in *. lia.
Qed.

Lemma inBoundsb_right (m : Map) (x y : Z) :
  inBounds m x y -> inBoundsb m x (y + 1) = (y <? getMapLength m - 1).
Proof.
  intros Hin. apply eq_iff_eq_true. rewrite inBoundsb_true, Z.ltb_lt.
  unfold inBounds in *. lia.
Qed.

Lemma moveCloserToHuman_walk (w : World) (i : nat) (c : Character) :
  gameCharacters w !! i = Some c ->
  intSized (theMap w) ->
  inBounds (theMap w) (getCurrentPositionX c) (getCurrentPositionY c) ->
  0 <= vec_at (getHumanPosition (theMap w)) 0 <= Int.max_int ->
  moveCloserToHuman i w = Done (walk i c w).
Proof.
  intros Hi Hsz Hin Hh.
  pose proof Hsz as [HW HL]. pose proof Hin as [Hx Hy].
  unfold moveCloserToHuman. rewrite (character_Done _ _ _ Hi).
  unfold mbind, outcome_bind. cbv beta iota zeta.
  fold (computedDistance (theMap w) (getCurrentPositionX c) (getCurrentPositionY c)).
  destruct (computedDistance (theMap w) (getCurrentPositionX c)
              (getCurrentPositionY c) =? 0) eqn:HD; cbn [negb].
  - apply Z.eqb_eq in HD. unfold walk, firstAdmissible, candidates.
    cbn [List.find].
    set (x := getCurrentPositionX c) in *. set (y := getCurrentPositionY c) in *.
    rewrite (nothing_admissible_at_zero (theMap w) x y (x - 1, y) Hsz Hin Hh HD),
      (nothing_admissible_at_zero (theMap w) x y (x, y - 1) Hsz Hin Hh HD),
      (nothing_admissible_at_zero (theMap w) x y (x + 1, y) Hsz Hin Hh HD),
      (nothing_admissible_at_zero (theMap w) x y (x, y + 1) Hsz Hin Hh HD);
      [reflexivity | simpl; tauto ..].
  - rewrite (moveUp_relocate w i c Hi), (moveLeft_relocate w i c Hi),
      (moveDown_relocate w i c Hi), (moveRight_relocate w i c Hi).
    unfold walk, firstAdmissible, candidates, admissible.
    cbn [List.find fst snd].
    set (x := getCurrentPositionX c) in *. set (y := getCurrentPositionY c) in *.
    set (W := getMapWidth (theMap w)) in *. set (L := getMapLength (theMap w)) in *.
    assert (Int.sub x 1 = x - 1) as -> by (apply sub_exact; int_arith).
    assert (Int.sub y 1 = y - 1) as -> by (apply sub_exact; int_arith).
    assert (Int.add x 1 = x + 1) as -> by (apply add_exact; int_arith).
    assert (Int.add y 1 = y + 1) as -> by (apply add_exact; int_arith).
    assert (Int.sub W 1 = W - 1) as -> by (apply sub_exact; int_arith).
    assert (Int.sub L 1 = L - 1) as -> by (apply sub_exact; int_arith).
    rewrite (inBoundsb_up _ _ _ Hin), (inBoundsb_left _ _ _ Hin),
      (inBoundsb_down _ _ _ Hin), (inBoundsb_right _ _ _ Hin).
    unfold computedDistance. subst x y W L.
    repeat (match goal with
            | |- context [if ?b then _ else _] => destruct b
            end; try reflexivity).
Qed.

(** [firstAdmissible] is the first neighbour in the order of [candidates]
    that can be entered. *)
Lemma firstAdmissible_first (m : Map) (x y : Z) (p : Z * Z) :
  firstAdmissible m x y = Some p <->
  exists k : nat,
    candidates x y !! k = Some p /\ admissible m x y p = true /\
    forall (j : nat) (q : Z * Z),
      (j < k)%nat -> candidates x y !! j = Some q -> admissible m x y q = false.
Proof.
  unfold firstAdmissible. generalize (candidates x y) as l.
  induction l as [|a l IH]; simpl.
  - split; [discriminate | intros (k & Hk & _); discriminate].
  - destruct (admissible m x y a) eqn:Ha.
    + split.
      * intros [= <-]. exists 0%nat. split; [reflexivity |].
        split; [exact Ha | intros j q Hlt; lia].
      * intros ([|k] & Hk & Hp & Hbefore).
        -- simpl in Hk. congruence.
        -- specialize (Hbefore 0%nat a ltac:(lia) eq_refl). congruence.
    + rewrite IH. split.
      * intros (k & Hk & Hp & Hbefore). exists (S k).
        split; [exact Hk |]. split; [exact Hp |].
        intros [|j] q Hlt Hj; simpl in Hj.
        -- congruence.
        -- apply (Hbefore j q); [lia | exact Hj].
      * intros ([|k] & Hk & Hp & Hbefore); simpl in Hk.
        -- congruence.
        -- exists k. split; [exact Hk |]. split; [exact Hp |].
           intros j q Hlt Hj. apply (Hbefore (S j) q); [lia | exact Hj].
Qed.

Lemma firstAdmissible_none (m : Map) (x y : Z) :
  firstAdmissible m x y = None <->
  forall q : Z * Z, In q (candidates x y) -> admissible m x y q = false.
Proof.
  unfold firstAdmissible. split.
  - intros Hnone q Hq. by apply (find_none _ _ Hnone).
  - intros Hall. destruct (find _ _) as [p|] eqn:Hfind; [| reflexivity].
    apply find_some in Hfind as [Hin Hp]. rewrite (Hall p Hin) in Hp.
    discriminate.
Qed.

Lemma firstAdmissible_candidate (m : Map) (x y : Z) (p : Z * Z) :
  firstAdmissible m x y = Some p ->
  In p (candidates x y) /\ admissible m x y p = true.
Proof. unfold firstAdmissible. apply find_some. Qed.

Lemma walkEnd_near (c : Character) (w : World) :
  Z.abs (fst (walkEnd c w) - getCurrentPositionX c)
  + Z.abs (snd (walkEnd c w) - getCurrentPositionY c) <= 1.
Proof.
  unfold walkEnd.
  destruct (firstAdmissible _ _ _) as [p|] eqn:Hfirst.
  - apply firstAdmissible_candidate in Hfirst as [Hin _].
    simpl in Hin. destruct Hin as [<- | [<- | [<- | [<- | []]]]]; simpl; lia.
  - simpl. lia.
Qed.

Lemma walk_character (w : World) (i : nat) (c : Character) :
  gameCharacters w !! i = Some c ->
  exists c' : Character,
    gameCharacters (walk i c w) !! i = Some c' /\ position c' = walkEnd c w.
Proof.
  intros Hi. unfold walk, walkEnd.
  destruct (firstAdmissible _ _ _) as [p|].
  - destruct (relocate_character w i c p Hi) as (c' & Hc' & Hpos & _).
    by exists c'.
  - by exists c.
Qed.

(** ** The attack moves nobody *)

Lemma attack_preserves (w w' : World) (i : nat) (x y : Z) :
  attackCharacterAtPosition i x y w = Done w' ->
  theMap w' = theMap w /\ console w' = console w /\
  position <$> gameCharacters w' = position <$> gameCharacters w.
Proof.
  intros Hrun. apply attack_Done_inv in Hrun as (j & t & (Hj & _) & ->).
  split; [reflexivity |]. split; [reflexivity |].
  simpl. rewrite list_fmap_insert.
  apply list_insert_id. rewrite list_lookup_fmap, Hj. simpl.
  unfold position. by destruct (sufferAttack_position t) as [-> ->].
Qed.

Lemma canAttack_branches (w : World) (i : nat) (c : Character) :
  gameCharacters w !! i = Some c ->
  canAttackOneAdjacentCharacter i w = Done w
  \/ (exists x y : Z,
        canAttackOneAdjacentCharacter i w = attackCharacterAtPosition i x y w /\
        attackable (getCell (theMap w) x y) = true)
  \/ (canAttackOneAdjacentCharacter i w =
        attackCharacterAtPosition i (getCurrentPositionX c)
          (Int.add (getCurrentPositionY c) 1) w /\
      ~ 0 < getCurrentPositionY c /\
      attackable (getCell (theMap w) (getCurrentPositionX c)
                    (Int.sub (getCurrentPositionY c) 1)) = true).
Proof.
  intros Hi. unfold canAttackOneAdjacentCharacter.
  rewrite (character_Done _ _ _ Hi). unfold mbind, outcome_bind.
  cbv beta iota zeta.
  repeat match goal with
  | |- context [Ascii.eqb ?s "S" || Ascii.eqb ?s "C" || Ascii.eqb ?s "O"] =>
      change (Ascii.eqb s "S" || Ascii.eqb s "C" || Ascii.eqb s "O")
        with (attackable s)
  end.
  destruct (0 <? getCurrentPositionX c) eqn:Hx;
    destruct (attackable (getCell (theMap w)
                (Int.sub (getCurrentPositionX c) 1) (getCurrentPositionY c)))
      eqn:Hup; cbn [andb];
    try (right; left; eexists _, _; split; [reflexivity | eassumption]).
  all: destruct (attackable (getCell (theMap w) (getCurrentPositionX c)
                   (Int.sub (getCurrentPositionY c) 1))) eqn:Hleft;
    destruct (0 <? getCurrentPositionY c) eqn:Hy; cbn [andb];
    try (right; left; eexists _, _; split; [reflexivity | eassumption]).
  all: destruct (getCurrentPositionX c <? Int.sub (getMapWidth (theMap w)) 1);
    destruct (attackable (getCell (theMap w)
                (Int.add (getCurrentPositionX c) 1) (getCurrentPositionY c)))
      eqn:Hdown; cbn [andb];
    try (right; left; eexists _, _; split; [reflexivity | eassumption]).
  all: rewrite ?andb_false_r.
  all: destruct (getCurrentPositionY c <? Int.sub (getMapLength (theMap w)) 1);
    cbn [andb]; try (by left).
  all: right; right; split; [reflexivity |]; split; [| reflexivity].
  all: apply Z.ltb_ge in Hy; lia.
Qed.

Lemma canAttack_preserves (w w' : World) (i : nat) :
  canAttackOneAdjacentCharacter i w = Done w' ->
  theMap w' = theMap w /\ console w' = console w /\
  position <$> gameCharacters w' = position <$> gameCharacters w.
Proof.
  intros Hrun.
  destruct (gameCharacters w !! i) as [c|] eqn:Hi.
  - destruct (canAttack_branches w i c Hi) as [Hstay | [(x & y & Hatt & _) | (Hatt & _)]].
    + rewrite Hstay in Hrun. injection Hrun as <-. auto.
    + rewrite Hatt in Hrun. by apply attack_preserves in Hrun.
    + rewrite Hatt in Hrun. by apply attack_preserves in Hrun.
  - unfold canAttackOneAdjacentCharacter, character in Hrun.
    rewrite Hi in Hrun. discriminate.
Qed.

Lemma same_position (chars chars' : list Character) (i : nat) (c : Character) :
  position <$> chars' = position <$> chars ->
  chars !! i = Some c ->
  exists c' : Character, chars' !! i = Some c' /\ position c' = position c.
Proof.
  intros Hpos Hi.
  assert ((position <$> chars') !! i = Some (position c)) as Hi'.
  { rewrite Hpos, list_lookup_fmap, Hi. reflexivity. }
  rewrite list_lookup_fmap in Hi'.
  destruct (chars' !! i) as [c'|]; [| discriminate].
  exists c'. split; [reflexivity |]. simpl in Hi'. congruence.
Qed.

(** ** Theorems on the walk *)

(** C1. For a character with positive hit points that stands on the grid,
    [moveCloserToHuman] tries the neighbours up, left, down, right in that
    order and enters the first one that is a cell of the grid, blank, and
    whose computed distance to the human's recorded position does not
    exceed the original one; when there is none the world is unchanged.
    [execute] renders the character, walks it so and then attacks, which
    moves nobody; the character ends at most one cell from where it was. *)
Theorem walk_enters_first_admissible (w : World) (i : nat) (c : Character) :
  gameCharacters w !! i = Some c ->
  0 < getHitPoints c ->
  intSized (theMap w) ->
  inBounds (theMap w) (getCurrentPositionX c) (getCurrentPositionY c) ->
  0 <= vec_at (getHumanPosition (theMap w)) 0 <= Int.max_int ->
  moveCloserToHuman i w = Done (walk i c w) /\
  execute i w =
    canAttackOneAdjacentCharacter i (walk i c (displayCharacter c w)) /\
  (forall w' : World, execute i w = Done w' ->
     exists c' : Character,
       gameCharacters w' !! i = Some c' /\ position c' = walkEnd c w) /\
  Z.abs (fst (walkEnd c w) - getCurrentPositionX c)
  + Z.abs (snd (walkEnd c w) - getCurrentPositionY c) <= 1.
Proof.
  intros Hi Hhp Hsz Hin Hh.
  assert (execute i w =
            canAttackOneAdjacentCharacter i (walk i c (displayCharacter c w)))
    as Hexec.
  { unfold execute. rewrite (character_Done _ _ _ Hi).
    unfold mbind at 1, outcome_bind at 1. cbv beta iota.
    apply Z.ltb_lt in Hhp. rewrite Hhp. cbv zeta.
    by rewrite (moveCloserToHuman_walk (displayCharacter c w) i c). }
  split; [by apply moveCloserToHuman_walk |].
  split; [exact Hexec |].
  split; [| apply walkEnd_near].
  intros w' Hrun. rewrite Hexec in Hrun.
  apply canAttack_preserves in Hrun as (_ & _ & Hpos).
  destruct (walk_character (displayCharacter c w) i c Hi) as (c1 & Hc1 & Hend).
  destruct (same_position _ _ i c1 Hpos Hc1) as (c' & Hc' & Hsame).
  exists c'. split; [exact Hc' |]. rewrite Hsame. exact Hend.
Qed.

Lemma moveCloserToHuman_steps (w : World) (i : nat) (c : Character) :
  gameCharacters w !! i = Some c ->
  intSized (theMap w) ->
  inBounds (theMap w) (getCurrentPositionX c) (getCurrentPositionY c) ->
  moveCloserToHuman i w = Done w
  \/ exists p : Z * Z,
       moveCloserToHuman i w = Done (relocate i c p w) /\
       In p (candidates (getCurrentPositionX c) (getCurrentPositionY c)) /\
       inBounds (theMap w) (fst p) (snd p) /\
       getCell (theMap w) (fst p) (snd p) = " ".
Proof.
  intros Hi [HW HL] [Hx Hy].
  unfold moveCloserToHuman. rewrite (character_Done _ _ _ Hi).
  unfold mbind, outcome_bind. cbv beta iota zeta.
  rewrite (moveUp_relocate w i c Hi), (moveLeft_relocate w i c Hi),
    (moveDown_relocate w i c Hi), (moveRight_relocate w i c Hi).
  unfold inBounds, candidates.
  set (x := getCurrentPositionX c) in *. set (y := getCurrentPositionY c) in *.
  set (W := getMapWidth (theMap w)) in *. set (L := getMapLength (theMap w)) in *.
  assert (Int.sub x 1 = x - 1) as -> by (apply sub_exact; int_arith).
  assert (Int.sub y 1 = y - 1) as -> by (apply sub_exact; int_arith).
  assert (Int.add x 1 = x + 1) as -> by (apply add_exact; int_arith).
  assert (Int.add y 1 = y + 1) as -> by (apply add_exact; int_arith).
  assert (Int.sub W 1 = W - 1) as -> by (apply sub_exact; int_arith).
  assert (Int.sub L 1 = L - 1) as -> by (apply sub_exact; int_arith).
  destruct (negb _); [| by left].
  repeat match goal with
  | |- context [if ?a && ?b && ?d then _ else _] =>
      let H := fresh "Hcond" in
      destruct (a && b && d) eqn:H;
      [ apply andb_true_iff in H as [H _];
        apply andb_true_iff in H as [?Hbound ?Hblank];
        apply Z.ltb_lt in Hbound; apply Ascii.eqb_eq in Hblank;
        right; eexists; split; [reflexivity |];
        cbn [fst snd In]; split; [tauto | split; [lia | assumption]]
      | clear H ]
  end.
  by left.
Qed.

(** C7. From a character that stands on the grid, the walk and [execute]
    leave it on a cell of the grid, and a cell it has moved to was blank
    before.  The four primitives themselves move whatever the destination
    is: the checks are those of [moveCloserToHuman]. *)
Theorem walk_stays_on_blank_grid_cells (w : World) (i : nat) (c : Character) :
  gameCharacters w !! i = Some c ->
  intSized (theMap w) ->
  inBounds (theMap w) (getCurrentPositionX c) (getCurrentPositionY c) ->
  let safe (w' : World) :=
    exists c' : Character,
      gameCharacters w' !! i = Some c' /\
      inBounds (theMap w') (getCurrentPositionX c') (getCurrentPositionY c') /\
      (position c' <> position c ->
       getCell (theMap w) (getCurrentPositionX c') (getCurrentPositionY c') = " ")
  in
  (exists w1 : World, moveCloserToHuman i w = Done w1 /\ safe w1) /\
  (forall w' : World, execute i w = Done w' -> safe w') /\
  moveUp i w =
    Done (relocate i c (Int.sub (getCurrentPositionX c) 1, getCurrentPositionY c) w) /\
  moveLeft i w =
    Done (relocate i c (getCurrentPositionX c, Int.sub (getCurrentPositionY c) 1) w) /\
  moveDown i w =
    Done (relocate i c (Int.add (getCurrentPositionX c) 1, getCurrentPositionY c) w) /\
  moveRight i w =
    Done (relocate i c (getCurrentPositionX c, Int.add (getCurrentPositionY c) 1) w).
Proof.
  intros Hi Hsz Hin safe.
  assert (forall w0 : World,
            theMap w0 = theMap w -> gameCharacters w0 = gameCharacters w ->
            exists w1 : World, moveCloserToHuman i w0 = Done w1 /\ safe w1)
    as Hwalk.
  { intros w0 Hmap Hreg.
    assert (gameCharacters w0 !! i = Some c) as Hi0 by (by rewrite Hreg).
    destruct (moveCloserToHuman_steps w0 i c Hi0) as [Hstay | (p & Hgo & _ & Hp & Hblank)];
      [by rewrite Hmap .. | |].
    - exists w0. split; [exact Hstay |]. exists c.
      split; [exact Hi0 |]. rewrite Hmap. split; [exact Hin | congruence].
    - exists (relocate i c p w0). split; [exact Hgo |].
      destruct (relocate_character w0 i c p Hi0) as (c' & Hc' & Hpos & _).
      exists c'. split; [exact Hc' |].
      destruct p as [px py]. injection Hpos as Hpx Hpy. rewrite Hpx, Hpy.
      split; [exact Hp | intros _; rewrite <- Hmap; exact Hblank]. }
  split; [by apply Hwalk |].
  split; [| by rewrite (moveUp_relocate w i c Hi), (moveLeft_relocate w i c Hi),
                 (moveDown_relocate w i c Hi), (moveRight_relocate w i c Hi)].
  intros w' Hrun. unfold execute in Hrun.
  rewrite (character_Done _ _ _ Hi) in Hrun.
  unfold mbind at 1, outcome_bind at 1 in Hrun. cbv beta iota in Hrun.
  destruct (0 <? getHitPoints c).
  - cbv zeta in Hrun.
    destruct (Hwalk (displayCharacter c w) eq_refl eq_refl)
      as (w1 & Hgo & c1 & Hc1 & Hin1 & Hblank1).
    rewrite Hgo in Hrun. unfold mbind, outcome_bind in Hrun.
    apply canAttack_preserves in Hrun as (Hmap & _ & Hpos).
    destruct (same_position _ _ i c1 Hpos Hc1) as (c' & Hc' & Hsame).
    exists c'. split; [exact Hc' |].
    injection Hsame as Hsx Hsy. unfold position. rewrite Hmap, Hsx, Hsy.
    split; [exact Hin1 | exact Hblank1].
  - injection Hrun as <-. exists c.
    split; [exact Hi |]. split; [exact Hin | congruence].
Qed.

(** ** Which point the walk heads for *)

Lemma relocate_withHumanAt (w : World) (i : nat) (c : Character) (p q : Z * Z) :
  relocate i c q (withHumanAt p w) = withHumanAt p (relocate i c q w).
Proof. reflexivity. Qed.

Lemma moveCloserToHuman_ignores_second_axis
    (w : World) (i : nat) (hx hy hy' : Z) :
  getHumanPosition (theMap w) = (hx, hy) ->
  moveCloserToHuman i (withHumanAt (hx, hy') w)
  = outcome_map (withHumanAt (hx, hy')) (moveCloserToHuman i w).
Proof.
  intros Hh. unfold moveCloserToHuman, character.
  change (gameCharacters (withHumanAt (hx, hy') w)) with (gameCharacters w).
  destruct (gameCharacters w !! i) as [c|] eqn:Hi; [| reflexivity].
  unfold mbind, outcome_bind. cbv beta iota zeta.
  assert (gameCharacters (withHumanAt (hx, hy') w) !! i = Some c) as Hi'
    by exact Hi.
  rewrite (moveUp_relocate _ i c Hi'), (moveLeft_relocate _ i c Hi'),
    (moveDown_relocate _ i c Hi'), (moveRight_relocate _ i c Hi').
  rewrite (moveUp_relocate w i c Hi), (moveLeft_relocate w i c Hi),
    (moveDown_relocate w i c Hi), (moveRight_relocate w i c Hi).
  rewrite !relocate_withHumanAt.
  change (getHumanPosition (theMap (withHumanAt (hx, hy') w))) with (hx, hy').
  rewrite Hh.
  change (vec_at (hx, hy') 0) with hx. change (vec_at (hx, hy) 0) with hx.
  change (getMapWidth (theMap (withHumanAt (hx, hy') w)))
    with (getMapWidth (theMap w)).
  change (getMapLength (theMap (withHumanAt (hx, hy') w)))
    with (getMapLength (theMap w)).
  repeat match goal with
  | |- context [getCell (theMap (withHumanAt (hx, hy') w)) ?a ?b] =>
      change (getCell (theMap (withHumanAt (hx, hy') w)) a b)
        with (getCell (theMap w) a b)
  end.
  repeat (match goal with
          | |- context [if ?b then _ else _] => destruct b
          end; try reflexivity).
Qed.

Lemma find_agree {A : Type} (f g : A -> bool) (l : list A) :
  (forall a : A, In a l -> f a = g a) -> List.find f l = List.find g l.
Proof.
  induction l as [|a l IH]; intros Hfg; simpl; [reflexivity |].
  rewrite (Hfg a (or_introl eq_refl)).
  destruct (g a); [reflexivity |].
  apply IH. intros b Hb. apply Hfg. by right.
Qed.

Lemma computedDistance_manhattan (m : Map) (x y hx hy : Z) :
  getHumanPosition m = (hx, hy) ->
  manhattan x y hx hx <= Int.max_int ->
  computedDistance m x y = manhattan x y hx hx.
Proof.
  intros Hh Hfit. unfold computedDistance, shortestDistanceToHuman, manhattan in *.
  rewrite Hh. change (vec_at (hx, hy) 0) with hx.
  rewrite (sub_exact x hx), (sub_exact y hx) by int_arith.
  rewrite (abs_exact (x - hx)), (abs_exact (y - hx)) by int_arith.
  apply add_exact. int_arith.
Qed.

Lemma walk_is_walkTowards (w : World) (i : nat) (c : Character) (hx hy : Z) :
  getHumanPosition (theMap w) = (hx, hy) ->
  manhattan (getCurrentPositionX c) (getCurrentPositionY c) hx hx < Int.max_int ->
  walk i c w = walkTowards hx hx i c w.
Proof.
  intros Hh Hfit. unfold walk, walkTowards, firstAdmissible, stepTowards.
  rewrite (find_agree _ (nearer hx hx (theMap w) (getCurrentPositionX c)
                           (getCurrentPositionY c))); [reflexivity |].
  intros p Hp. unfold admissible, nearer. f_equal.
  rewrite (computedDistance_manhattan _ _ _ hx hy Hh (Z.lt_le_incl _ _ Hfit)).
  rewrite (computedDistance_manhattan _ _ _ hx hy Hh); [reflexivity |].
  unfold manhattan in *. simpl in Hp.
  destruct Hp as [<- | [<- | [<- | [<- | []]]]]; cbn [fst snd];
    clear - Hfit; lia.
Qed.

Lemma positions_differ (w1 w2 : World) :
  position <$> gameCharacters w1 <> position <$> gameCharacters w2 ->
  Done w1 <> Done w2.
Proof. intros Hne [= ->]. by apply Hne. Qed.

(** C2. [moveCloserToHuman] takes both coordinates of its target from
    index 0 of the human's position.  With the human recorded at
    [(hx, hy)], the second coordinate [hy] has no influence on the walk,
    and for a character on the grid the walk is the one that measures the
    Manhattan distance, taken in the integers, to the point [(hx, hx)].
    That is not the walk towards the human: with the human at (2,7) the
    character at (2,5) walks as towards (2,2), to (2,4), where the walk
    towards (2,7) goes to (2,6). *)
Theorem walk_heads_for_first_axis_twice (w : World) (i : nat) (hx hy : Z) :
  getHumanPosition (theMap w) = (hx, hy) ->
  (forall hy' : Z,
     moveCloserToHuman i (withHumanAt (hx, hy') w)
     = outcome_map (withHumanAt (hx, hy')) (moveCloserToHuman i w)) /\
  (forall c : Character,
     gameCharacters w !! i = Some c ->
     intSized (theMap w) ->
     inBounds (theMap w) (getCurrentPositionX c) (getCurrentPositionY c) ->
     0 <= hx <= Int.max_int ->
     manhattan (getCurrentPositionX c) (getCurrentPositionY c) hx hx
     < Int.max_int ->
     moveCloserToHuman i w = Done (walkTowards hx hx i c w)) /\
  exists (w0 : World) (c0 : Character),
    gameCharacters w0 !! 0%nat = Some c0 /\
    position c0 = (2, 5) /\
    getHumanPosition (theMap w0) = (2, 7) /\
    moveCloserToHuman 0 w0 = Done (walkTowards 2 2 0 c0 w0) /\
    walkTowards 2 2 0 c0 w0 = relocate 0 c0 (2, 4) w0 /\
    walkTowards 2 7 0 c0 w0 = relocate 0 c0 (2, 6) w0 /\
    moveCloserToHuman 0 w0 <> Done (walkTowards 2 7 0 c0 w0).
Proof.
  intros Hh.
  split; [intros hy'; exact (moveCloserToHuman_ignores_second_axis w i hx hy hy' Hh) |].
  split.
  - intros c Hi Hsz Hin Hhx Hfit.
    rewrite <- (walk_is_walkTowards w i c hx hy Hh Hfit).
    apply (moveCloserToHuman_walk w i c Hi Hsz Hin).
    rewrite Hh. exact Hhx.
  - exists chase, pursuer.
    split; [reflexivity |]. split; [reflexivity |]. split; [reflexivity |].
    split; [vm_compute; reflexivity |].
    split; [reflexivity |]. split; [reflexivity |].
    assert (moveCloserToHuman 0 chase = Done (relocate 0 pursuer (2, 4) chase))
      as -> by (vm_compute; reflexivity).
    apply positions_differ. vm_compute. discriminate.
Qed.

(** With the human at (2,7) the aggressor at (2,5) reads the human at
    (2,2): it steps to (2,4), away from the human, where the walk towards
    (2,7) steps to (2,6). *)
Lemma chase_runs_away :
  moveCloserToHuman 0 chase = Done (relocate 0 pursuer (2, 4) chase) /\
  walkTowards 2 2 0 pursuer chase = relocate 0 pursuer (2, 4) chase /\
  walkTowards 2 7 0 pursuer chase = relocate 0 pursuer (2, 6) chase.
Proof. repeat split; vm_compute; reflexivity. Qed.

Lemma walk_heads_for_first_axis_twice_witness :
  getHumanPosition (theMap chase) = (2, 7) /\
  manhattan 2 5 2 2 = 3 /\
  moveCloserToHuman 0 chase = Done (walkTowards 2 2 0 pursuer chase).
Proof.
  split; [reflexivity |]. split; [reflexivity |].
  destruct (walk_heads_for_first_axis_twice chase 0 2 7 eq_refl)
    as (_ & Hwalk & _).
  apply (Hwalk pursuer).
  - reflexivity.
  - split; unfold Int.in_range, Int.min_int, Int.max_int; simpl; lia.
  - unfold inBounds; simpl; lia.
  - unfold Int.max_int; lia.
  - unfold manhattan, Int.max_int; simpl; lia.
Defined.

(** ** The scan for a character to attack *)

(** A character that is not in the first column attacks, if anybody, one
    of its first three neighbours: whatever the cell [(x, y + 1)] shows,
    it is not the one attacked. *)
Lemma scan_stops_at_third_neighbour (w : World) (i : nat) (c : Character) :
  gameCharacters w !! i = Some c ->
  0 < getCurrentPositionY c ->
  let x := getCurrentPositionX c in
  let y := getCurrentPositionY c in
  canAttackOneAdjacentCharacter i w = Done w
  \/ exists p : Z * Z,
       In p [(Int.sub x 1, y); (x, Int.sub y 1); (Int.add x 1, y)] /\
       attackable (getCell (theMap w) (fst p) (snd p)) = true /\
       canAttackOneAdjacentCharacter i w
       = attackCharacterAtPosition i (fst p) (snd p) w.
Proof.
  intros Hi Hy x y. unfold canAttackOneAdjacentCharacter.
  rewrite (character_Done _ _ _ Hi). unfold mbind, outcome_bind.
  cbv beta iota zeta. fold x y.
  repeat match goal with
  | |- context [Ascii.eqb ?s "S" || Ascii.eqb ?s "C" || Ascii.eqb ?s "O"] =>
      change (Ascii.eqb s "S" || Ascii.eqb s "C" || Ascii.eqb s "O")
        with (attackable s)
  end.
  apply Z.ltb_lt in Hy. fold y in Hy. rewrite Hy. cbn [andb].
  destruct (0 <? x);
    destruct (attackable (getCell (theMap w) (Int.sub x 1) y)) eqn:Hup;
    cbn [andb];
    try (right; exists (Int.sub x 1, y); cbn [In fst snd];
         split; [left; reflexivity | split; [assumption | reflexivity]]).
  all: destruct (attackable (getCell (theMap w) x (Int.sub y 1))) eqn:Hleft;
    try (right; exists (x, Int.sub y 1); cbn [In fst snd];
         split; [right; left; reflexivity | split; [assumption | reflexivity]]).
  all: rewrite andb_false_r.
  all: destruct ((x <? Int.sub (getMapWidth (theMap w)) 1)
                 && attackable (getCell (theMap w) (Int.add x 1) y)) eqn:Hdown;
    [| by left].
  all: apply andb_true_iff in Hdown as [_ Hdown].
  all: right; exists (Int.add x 1, y); cbn [In fst snd].
  all: split; [right; right; left; reflexivity | split; [assumption | reflexivity]].
Qed.

(** C3. The aggressor at (1,1) of [skirmish] has one neighbour it can
    attack, the hostile character at (1,2): a cell of the grid, fourth in
    the order of the scan, and the recorded position of entry 1.  The scan
    tests the cell (1,0) once more in its place, so nobody is attacked:
    the scan returns the world as it is and [execute] only renders the
    character. *)
Theorem scan_misses_fourth_neighbour :
  gameCharacters skirmish !! 0%nat = Some sentinel /\
  gameCharacters skirmish !! 1%nat = Some prey /\
  standsAt 1 2 prey /\
  inBounds (theMap skirmish) 1 2 /\
  getCell (theMap skirmish) 1 2 = "S" /\
  attackable (getCell (theMap skirmish) 0 1) = false /\
  attackable (getCell (theMap skirmish) 1 0) = false /\
  attackable (getCell (theMap skirmish) 2 1) = false /\
  canAttackOneAdjacentCharacter 0 skirmish = Done skirmish /\
  execute 0 skirmish = Done (displayCharacter sentinel skirmish).
Proof.
  repeat split; try (vm_compute; reflexivity); vm_compute; congruence.
Qed.

(** ** Attacks on cells nobody stands at *)

Lemma relocate_registered (w : World) (i : nat) (c : Character) (p : Z * Z) :
  registered w -> gameCharacters w !! i = Some c ->
  registered (relocate i c p w).
Proof.
  intros Hreg Hi a b Hatt. destruct p as [px py].
  change (theMap (relocate i c (px, py) w))
    with (setCell px py (getTypeOnMap c)
            (clearCell (getCurrentPositionX c) (getCurrentPositionY c) (theMap w)))
    in Hatt.
  destruct (decide ((px, py) = (a, b))) as [Heq | Hne].
  - injection Heq as <- <-.
    destruct (relocate_character w i c (px, py) Hi) as (c' & Hc' & Hpos & _).
    exists i, c'. split; [exact Hc' |]. injection Hpos as Hx Hy. by split.
  - rewrite getCell_setCell_other in Hatt by exact Hne.
    destruct (decide ((getCurrentPositionX c, getCurrentPositionY c) = (a, b)))
      as [Hold | Hother].
    + injection Hold as <- <-. by rewrite getCell_clearCell_same in Hatt.
    + rewrite getCell_clearCell_other in Hatt by exact Hother.
      destruct (Hreg a b Hatt) as (k & ck & Hk & Hxk & Hyk).
      exists k, ck. split; [| by split].
      simpl. rewrite list_lookup_insert_ne; [exact Hk |].
      intros <-. apply Hother. congruence.
Qed.

Lemma relocate_allOnGrid (w : World) (i : nat) (c : Character) (p : Z * Z) :
  allOnGrid w -> inBounds (theMap w) (fst p) (snd p) ->
  allOnGrid (relocate i c p w).
Proof.
  intros Hall Hp k ck Hk. simpl in Hk.
  change (inBounds (theMap w) (getCurrentPositionX ck) (getCurrentPositionY ck)).
  destruct (decide (i = k)) as [<- | Hne].
  - destruct (decide (i < length (gameCharacters w))%nat) as [Hlt | Hge].
    + rewrite list_lookup_insert_eq in Hk by exact Hlt.
      injection Hk as <-. exact Hp.
    + rewrite list_insert_ge in Hk by lia. by apply (Hall i).
  - rewrite list_lookup_insert_ne in Hk by exact Hne. by apply (Hall k).
Qed.

Lemma canAttack_completes (w : World) (i : nat) (c : Character) :
  gameCharacters w !! i = Some c -> registered w -> allOnGrid w ->
  exists w' : World, canAttackOneAdjacentCharacter i w = Done w'.
Proof.
  intros Hi Hreg Hall.
  destruct (canAttack_branches w i c Hi)
    as [Hstay | [(x & y & Hrun & Hatt) | (Hrun & Hy & Hatt)]].
  - by exists w.
  - destruct (Hreg x y Hatt) as (k & t & Hk & Ht).
    destruct (attack_somebody w i k x y t Hk Ht) as (j & t' & _ & _ & Hdone).
    eexists. rewrite Hrun. exact Hdone.
  - exfalso.
    destruct (Hreg _ _ Hatt) as (k & t & Hk & _ & Hty).
    pose proof (Hall k t Hk) as [_ [Hlow _]].
    pose proof (Hall i c Hi) as [_ [Hlow' _]].
    assert (getCurrentPositionY c = 0) as Hzero by lia.
    rewrite Hty, Hzero in Hlow. vm_compute in Hlow. by apply Hlow.
Qed.

(** C9. [attackCharacterAtPosition] has two outcomes and reports neither:
    it completes when an entry of the registry stands at the attacked cell,
    and dereferences the pointer it never assigned when none does.  When
    every cell that shows a character is the recorded position of an entry
    and the entries stand on the grid, the scan for a neighbour and
    [execute] complete: the wild pointer is not reached. *)
Theorem wild_pointer_needs_unregistered_cell (w : World) (i : nat) (c : Character) :
  gameCharacters w !! i = Some c ->
  registered w -> allOnGrid w -> intSized (theMap w) ->
  (forall (x y : Z) (k : nat) (t : Character),
     gameCharacters w !! k = Some t -> standsAt x y t ->
     exists w' : World, attackCharacterAtPosition i x y w = Done w') /\
  (forall x y : Z,
     (forall (k : nat) (t : Character),
        gameCharacters w !! k = Some t -> ~ standsAt x y t) ->
     attackCharacterAtPosition i x y w = Undefined WildPointer) /\
  (exists w' : World, canAttackOneAdjacentCharacter i w = Done w') /\
  (exists w' : World, execute i w = Done w').
Proof.
  intros Hi Hreg Hall Hsz.
  split.
  { intros x y k t Hk Ht.
    destruct (attack_somebody w i k x y t Hk Ht) as (j & t' & _ & _ & Hdone).
    eexists. exact Hdone. }
  split; [intros x y; apply attack_nobody |].
  split; [by apply (canAttack_completes w i c) |].
  unfold execute. rewrite (character_Done _ _ _ Hi).
  unfold mbind at 1, outcome_bind at 1. cbv beta iota.
  destruct (0 <? getHitPoints c); [| by exists w].
  cbv zeta. set (w0 := displayCharacter c w).
  assert (gameCharacters w0 !! i = Some c) as Hi0 by exact Hi.
  destruct (moveCloserToHuman_steps w0 i c Hi0 Hsz (Hall i c Hi))
    as [-> | (p & -> & _ & Hp & _)]; unfold mbind, outcome_bind.
  - by apply (canAttack_completes w0 i c).
  - destruct (relocate_character w0 i c p Hi0) as (c' & Hc' & _).
    apply (canAttack_completes _ i c' Hc').
    + by apply (relocate_registered w0).
    + by apply (relocate_allOnGrid w0).
Qed.

(** ** The invariant of the data model *)

Lemma relocate_consistent (w : World) (i : nat) (c : Character) (p : Z * Z) :
  consistent w -> gameCharacters w !! i = Some c -> freeFor i w p ->
  consistent (relocate i c p w).
Proof.
  intros [Hone Hsym] Hi Hfree. destruct p as [px py].
  assert (i < length (gameCharacters w))%nat as Hlen by (by eapply lookup_lt_Some).
  assert (forall (k : nat) (ck : Character),
            gameCharacters (relocate i c (px, py) w) !! k = Some ck ->
            (k = i /\ position ck = (px, py) /\ getTypeOnMap ck = getTypeOnMap c)
            \/ (k <> i /\ gameCharacters w !! k = Some ck)) as Hentry.
  { intros k ck Hk. simpl in Hk. destruct (decide (i = k)) as [<- | Hne].
    - rewrite list_lookup_insert_eq in Hk by exact Hlen. injection Hk as <-.
      left. auto.
    - rewrite list_lookup_insert_ne in Hk by exact Hne. right. auto. }
  split.
  - intros j k cj ck Hj Hk Hpos.
    apply Hentry in Hj as [(-> & Hpj & _) | (Hnj & Hj)];
      apply Hentry in Hk as [(-> & Hpk & _) | (Hnk & Hk)].
    + reflexivity.
    + exfalso. apply (Hfree k ck Hnk Hk). congruence.
    + exfalso. apply (Hfree j cj Hnj Hj). congruence.
    + by apply (Hone j k cj ck).
  - intros j cj Hj.
    change (theMap (relocate i c (px, py) w))
      with (setCell px py (getTypeOnMap c)
              (clearCell (getCurrentPositionX c) (getCurrentPositionY c) (theMap w))).
    apply Hentry in Hj as [(-> & Hpj & Htype) | (Hnj & Hj)].
    + injection Hpj as -> ->. rewrite getCell_setCell_same. by symmetry.
    + rewrite getCell_setCell_other, getCell_clearCell_other.
      * by apply (Hsym j).
      * intros Heq. apply Hnj. symmetry. by apply (Hone i j c cj).
      * intros Heq. apply (Hfree j cj Hnj Hj). by symmetry.
Qed.

Lemma onePerCell_positions (w w' : World) :
  position <$> gameCharacters w' = position <$> gameCharacters w ->
  onePerCell w -> onePerCell w'.
Proof.
  intros Hpos Hone j k cj ck Hj Hk Heq.
  destruct (same_position _ _ j cj (eq_sym Hpos) Hj) as (cj0 & Hj0 & Hpj).
  destruct (same_position _ _ k ck (eq_sym Hpos) Hk) as (ck0 & Hk0 & Hpk).
  apply (Hone j k cj0 ck0 Hj0 Hk0). congruence.
Qed.

Lemma sufferAttack_symbol (t : Character) :
  getTypeOnMap t <> "C" -> getTypeOnMap (sufferAttack t) = getTypeOnMap t.
Proof.
  intros Hne. pose proof (sufferAttack_other t Hne) as Hsame.
  unfold allegiance in Hsame. congruence.
Qed.

Lemma attack_consistent (w : World) (j : nat) (t : Character) :
  consistent w -> gameCharacters w !! j = Some t ->
  onePerCell (withCharacter j (sufferAttack t) w) /\
  (getTypeOnMap t <> "C" -> consistent (withCharacter j (sufferAttack t) w)).
Proof.
  intros [Hone Hsym] Hj.
  assert (j < length (gameCharacters w))%nat as Hlen by (by eapply lookup_lt_Some).
  assert (onePerCell (withCharacter j (sufferAttack t) w)) as Hone'.
  { apply (onePerCell_positions w); [| exact Hone].
    simpl. rewrite list_fmap_insert. apply list_insert_id.
    rewrite list_lookup_fmap, Hj. simpl. unfold position.
    by destruct (sufferAttack_position t) as [-> ->]. }
  split; [exact Hone' |].
  intros Hne. split; [exact Hone' |].
  intros k ck Hk. simpl in Hk. change (theMap (withCharacter _ _ w)) with (theMap w).
  destruct (decide (j = k)) as [<- | Hother].
  - rewrite list_lookup_insert_eq in Hk by exact Hlen. injection Hk as <-.
    destruct (sufferAttack_position t) as [-> ->].
    rewrite (sufferAttack_symbol t Hne). by apply (Hsym j).
  - rewrite list_lookup_insert_ne in Hk by exact Hother. by apply (Hsym k).
Qed.

(** The test of [moveCloserToHuman] is enough for the primitives: a blank
    cell is recorded by no character whose symbol is not a blank. *)
Lemma walk_keeps_invariant (w : World) (i : nat) (c : Character) :
  gameCharacters w !! i = Some c ->
  consistent w ->
  (forall (k : nat) (ck : Character),
     gameCharacters w !! k = Some ck -> getTypeOnMap ck <> " ") ->
  intSized (theMap w) ->
  inBounds (theMap w) (getCurrentPositionX c) (getCurrentPositionY c) ->
  exists w1 : World, moveCloserToHuman i w = Done w1 /\ consistent w1.
Proof.
  intros Hi Hcons Hshown Hsz Hin.
  destruct (moveCloserToHuman_steps w i c Hi Hsz Hin)
    as [Hstay | (p & Hgo & _ & _ & Hblank)].
  - by exists w.
  - exists (relocate i c p w). split; [exact Hgo |].
    apply relocate_consistent; [exact Hcons | exact Hi |].
    intros k ck _ Hk Hpos. apply (Hshown k ck Hk).
    destruct Hcons as [_ Hsym]. rewrite <- (Hsym k ck Hk).
    destruct p as [px py]. injection Hpos as -> ->. exact Hblank.
Qed.

(** C8, as amended.  From a world that satisfies the invariant, each of
    the four primitives keeps it when no other entry of the registry
    records the cell it moves to.  An attack moves nobody and leaves the
    map alone, so no two entries record the same cell after it, and it
    keeps the whole invariant when the symbol of the attacked character
    is not the friendly mark. *)
Theorem guarded_mutations_keep_invariant (w : World) (i : nat) (c : Character) :
  consistent w -> gameCharacters w !! i = Some c ->
  (freeFor i w (Int.sub (getCurrentPositionX c) 1, getCurrentPositionY c) ->
   exists w' : World, moveUp i w = Done w' /\ consistent w') /\
  (freeFor i w (Int.add (getCurrentPositionX c) 1, getCurrentPositionY c) ->
   exists w' : World, moveDown i w = Done w' /\ consistent w') /\
  (freeFor i w (getCurrentPositionX c, Int.sub (getCurrentPositionY c) 1) ->
   exists w' : World, moveLeft i w = Done w' /\ consistent w') /\
  (freeFor i w (getCurrentPositionX c, Int.add (getCurrentPositionY c) 1) ->
   exists w' : World, moveRight i w = Done w' /\ consistent w') /\
  (forall (x y : Z) (k : nat) (t0 : Character),
     gameCharacters w !! k = Some t0 -> standsAt x y t0 ->
     exists (j : nat) (t : Character) (w' : World),
       lastAt x y (gameCharacters w) j t /\
       attackCharacterAtPosition i x y w = Done w' /\
       theMap w' = theMap w /\
       position <$> gameCharacters w' = position <$> gameCharacters w /\
       onePerCell w' /\
       (getTypeOnMap t <> "C" -> consistent w')).
Proof.
  intros Hcons Hi.
  split; [intros Hfree; eexists; split;
            [apply (moveUp_relocate w i c Hi) | by apply relocate_consistent] |].
  split; [intros Hfree; eexists; split;
            [apply (moveDown_relocate w i c Hi) | by apply relocate_consistent] |].
  split; [intros Hfree; eexists; split;
            [apply (moveLeft_relocate w i c Hi) | by apply relocate_consistent] |].
  split; [intros Hfree; eexists; split;
            [apply (moveRight_relocate w i c Hi) | by apply relocate_consistent] |].
  intros x y k t0 Hk Ht0.
  destruct (attack_somebody w i k x y t0 Hk Ht0) as (j & t & Hlast & _ & Hrun).
  exists j, t, (withCharacter j (sufferAttack t) w).
  split; [exact Hlast |]. split; [exact Hrun |]. split; [reflexivity |].
  split; [by apply attack_preserves in Hrun as (_ & _ & Hpos) |].
  destruct Hlast as (Hj & _). by apply attack_consistent.
Qed.

(** ** The sample worlds *)

Ltac entries :=
  repeat match goal with
  | H : (_ :: _) !! ?k = Some _ |- _ =>
      destruct k; simpl in H; [injection H as <- |]
  | H : [] !! _ = Some _ |- _ => discriminate H
  end.

Lemma duel_consistent : consistent duel.
Proof.
  split.
  - intros j k cj ck Hj Hk Hpos. simpl in Hj, Hk. entries;
      try reflexivity; discriminate Hpos.
  - intros j cj Hj. simpl in Hj. entries; vm_compute; reflexivity.
Qed.

Lemma parley_consistent : consistent parley.
Proof.
  split.
  - intros j k cj ck Hj Hk Hpos. simpl in Hj, Hk. entries;
      try reflexivity; discriminate Hpos.
  - intros j cj Hj. simpl in Hj. entries; vm_compute; reflexivity.
Qed.

Lemma duel_registered : registered duel.
Proof.
  intros x y Hatt. unfold getCell in Hatt. simpl in Hatt.
  destruct (decide ((3, 3) = (x, y))) as [Heq | Hne].
  { injection Heq as <- <-. exists 0%nat, duellist. by repeat split. }
  rewrite lookup_insert_ne in Hatt by exact Hne.
  destruct (decide ((2, 3) = (x, y))) as [Heq | Hne'].
  { injection Heq as <- <-. exists 1%nat, hostile. by repeat split. }
  rewrite lookup_insert_ne in Hatt by exact Hne'.
  rewrite lookup_empty in Hatt. discriminate Hatt.
Qed.

Lemma duel_allOnGrid : allOnGrid duel.
Proof.
  intros k ck Hk. simpl in Hk. entries; unfold inBounds; simpl; lia.
Qed.

Lemma duel_intSized : intSized (theMap duel).
Proof. split; unfold Int.in_range, Int.min_int, Int.max_int; simpl; lia. Qed.

Lemma chase_intSized : intSized (theMap chase).
Proof. split; unfold Int.in_range, Int.min_int, Int.max_int; simpl; lia. Qed.

Lemma chase_inBounds : inBounds (theMap chase) 2 5.
Proof. unfold inBounds; simpl; lia. Qed.

Lemma duel_lastAt : lastAt 2 3 (gameCharacters duel) 1 hostile.
Proof.
  split; [reflexivity |]. split; [split; reflexivity |].
  intros [|[|k]] c Hlt Hk; [lia | lia | discriminate Hk].
Qed.

Lemma parley_lastAt : lastAt 2 3 (gameCharacters parley) 1 friend.
Proof.
  split; [reflexivity |]. split; [split; reflexivity |].
  intros [|[|k]] c Hlt Hk; [lia | lia | discriminate Hk].
Qed.

(** The primitives check nothing: from the corner (0,0) [moveUp] puts the
    character at (-1,0), off the grid, where the walk, called on the same
    world, steps to (1,0). *)
Lemma corner_moves :
  moveUp 0 corner = Done (relocate 0 cornered (-1, 0) corner) /\
  ~ inBounds (theMap corner) (-1) 0 /\
  moveCloserToHuman 0 corner = Done (relocate 0 cornered (1, 0) corner).
Proof.
  split; [vm_compute; reflexivity |].
  split; [unfold inBounds; simpl; lia | vm_compute; reflexivity].
Qed.

(** The scenario of the specification: after [execute] the hostile
    character has no hit point left and the attacker has not moved. *)
Lemma duel_scenario :
  execute 0 duel
  = Done (withCharacter 1 (setHitPoints 0 hostile) (displayCharacter duellist duel)).
Proof. vm_compute. reflexivity. Qed.

(** ** Witnesses and the counterexample *)

Lemma walk_enters_first_admissible_witness :
  moveCloserToHuman 0 chase = Done (walk 0 pursuer chase) /\
  walkEnd pursuer chase = (2, 4).
Proof.
  split; [| reflexivity].
  destruct (walk_enters_first_admissible chase 0 pursuer) as [Hwalk _].
  - reflexivity.
  - simpl; lia.
  - exact chase_intSized.
  - exact chase_inBounds.
  - unfold Int.max_int; simpl; lia.
  - exact Hwalk.
Defined.

Lemma walk_stays_on_blank_grid_cells_witness :
  exists w1 : World, moveCloserToHuman 0 chase = Done w1.
Proof.
  destruct (walk_stays_on_blank_grid_cells chase 0 pursuer)
    as [(w1 & Hwalk & _) _].
  - reflexivity.
  - exact chase_intSized.
  - exact chase_inBounds.
  - exists w1. exact Hwalk.
Defined.

Lemma attack_takes_one_hit_point_witness :
  exists (t' : Character) (w' : World),
    attackCharacterAtPosition 0 2 3 duel = Done w' /\
    gameCharacters w' !! 1%nat = Some t' /\
    getHitPoints hostile = 1 /\ getHitPoints t' = 0.
Proof.
  destruct (attack_takes_one_hit_point duel 0 1 2 3 hostile)
    as (j & t & t' & w' & Hlast & Hrun & Hj & _ & Hhp).
  - reflexivity.
  - split; reflexivity.
  - destruct (lastAt_unique _ _ _ _ _ _ _ Hlast duel_lastAt) as [-> ->].
    exists t', w'. split; [exact Hrun |]. split; [exact Hj |].
    split; [reflexivity |]. rewrite Hhp; [reflexivity |].
    unfold Int.min_int, Int.max_int; simpl; lia.
Defined.

Lemma friendly_turns_hostile_once_witness :
  exists (t1 : Character) (w1 w2 : World),
    attackCharacterAtPosition 0 2 3 parley = Done w1 /\
    gameCharacters w1 !! 1%nat = Some t1 /\
    allegiance friend = ("C", Friendly) /\
    allegiance t1 = ("O", Aggressor) /\
    attackCharacterAtPosition 0 2 3 w1 = Done w2 /\
    allegiances w2 = allegiances w1.
Proof.
  destruct (friendly_turns_hostile_once parley 0 1 2 3 friend)
    as (j & t & t1 & w1 & w2 & Hlast & Hfirst & Hj & Hturn & _ & Hsecond & Hsame).
  - reflexivity.
  - split; reflexivity.
  - destruct (lastAt_unique _ _ _ _ _ _ _ Hlast parley_lastAt) as [-> ->].
    exists t1, w1, w2. split; [exact Hfirst |]. split; [exact Hj |].
    split; [reflexivity |]. split; [apply Hturn; reflexivity |].
    split; [exact Hsecond | exact Hsame].
Defined.

Lemma crowd_lastAt : lastAt 2 3 (gameCharacters crowd) 2 friend.
Proof.
  split; [reflexivity |]. split; [split; reflexivity |].
  intros [|[|[|k]]] c Hlt Hk; [lia | lia | lia | discriminate Hk].
Qed.

Lemma attack_hits_last_match_witness :
  exists (t' : Character) (w' : World),
    gameCharacters crowd !! 1%nat = Some hostile /\ standsAt 2 3 hostile /\
    gameCharacters crowd !! 2%nat = Some friend /\ standsAt 2 3 friend /\
    attackCharacterAtPosition 0 2 3 crowd = Done w' /\
    gameCharacters w' !! 1%nat = Some hostile /\
    gameCharacters w' !! 2%nat = Some t' /\
    getHitPoints friend = 4 /\ getHitPoints t' = 3 /\
    allegiance t' = ("O", Aggressor).
Proof.
  destruct (attack_hits_last_match crowd 0 1 2 3 hostile)
    as (j & t & t' & w' & Hlast & _ & Hrun & Hj & Hhp & _ & _ & Hall & Hrest & _).
  - reflexivity.
  - split; reflexivity.
  - destruct (lastAt_unique _ _ _ _ _ _ _ Hlast crowd_lastAt) as [-> ->].
    exists t', w'.
    split; [reflexivity |]. split; [split; reflexivity |].
    split; [reflexivity |]. split; [split; reflexivity |].
    split; [exact Hrun |].
    split; [rewrite (Hrest 1%nat ltac:(lia)); reflexivity |].
    split; [exact Hj |]. split; [reflexivity |].
    split; [rewrite Hhp; reflexivity | rewrite Hall; reflexivity].
Defined.

(** In [crowd] the attack on (2,3) falls on entry 2, the friendly
    character, and leaves entry 1, which records the same cell, as it was. *)
Lemma crowd_attack :
  attackCharacterAtPosition 0 2 3 crowd
  = Done (withCharacter 2 (mkCharacter 2 3 3 "O" Aggressor) crowd).
Proof. vm_compute. reflexivity. Qed.

Lemma dead_character_is_inert_witness :
  getHitPoints fallen <= 0 /\ execute 0 graveyard = Done graveyard.
Proof.
  split; [simpl; lia |].
  apply (dead_character_is_inert graveyard 0 fallen); [reflexivity | simpl; lia].
Defined.

Lemma wild_pointer_needs_unregistered_cell_witness :
  exists w' : World, execute 0 duel = Done w'.
Proof.
  destruct (wild_pointer_needs_unregistered_cell duel 0 duellist)
    as (_ & _ & _ & Hrun).
  - reflexivity.
  - exact duel_registered.
  - exact duel_allOnGrid.
  - exact duel_intSized.
  - exact Hrun.
Defined.

Lemma guarded_mutations_keep_invariant_witness :
  exists w' : World, moveLeft 0 duel = Done w' /\ consistent w'.
Proof.
  destruct (guarded_mutations_keep_invariant duel 0 duellist)
    as (_ & _ & Hleft & _).
  - exact duel_consistent.
  - reflexivity.
  - apply Hleft. intros k ck Hne Hk. simpl in Hk. entries.
    + contradiction.
    + discriminate.
Defined.

(** C8, as stated, fails twice.  In [duel] the primitive [moveUp] puts the
    character of entry 0 on the cell (2,3) that entry 1 records.  In
    [parley] the attack on (2,3) turns the symbol of the friendly
    character into 'O' while the cell goes on showing 'C'. *)
Lemma unguarded_mutations_break_invariant :
  ~ keepsConsistent (moveUp 0) /\
  ~ keepsConsistent (attackCharacterAtPosition 0 2 3).
Proof.
  split; intros Hkeep.
  - assert (moveUp 0 duel = Done (relocate 0 duellist (2, 3) duel)) as Hrun
      by (vm_compute; reflexivity).
    destruct (Hkeep duel _ duel_consistent Hrun) as [Hone _].
    specialize (Hone 0%nat 1%nat _ _ eq_refl eq_refl eq_refl). discriminate Hone.
  - assert (attackCharacterAtPosition 0 2 3 parley
            = Done (withCharacter 1 (sufferAttack friend) parley)) as Hrun
      by (vm_compute; reflexivity).
    destruct (Hkeep parley _ parley_consistent Hrun) as [_ Hsym].
    specialize (Hsym 1%nat _ eq_refl). vm_compute in Hsym. discriminate Hsym.
Qed.

(** * Further properties of the strategy *)

(** ** More on machine integers *)

Lemma wrap_congruent (z : Z) :
  exists q : Z, Int.wrap z = z - Int.modulus * q /\ Int.in_range (Int.wrap z).
Proof.
  unfold Int.wrap, Int.in_range, Int.min_int, Int.max_int, Int.modulus.
  exists ((z - -2147483648) / 4294967296).
  pose proof (Z.div_mod (z - -2147483648) 4294967296 ltac:(lia)) as Hdm.
  pose proof (Z.mod_pos_bound (z - -2147483648) 4294967296 ltac:(lia)) as Hb.
  lia.
Qed.

Lemma sub_one_moves (x : Z) : Int.sub x 1 <> x.
Proof.
  unfold Int.sub. destruct (wrap_congruent (x - 1)) as (q & -> & _).
  unfold Int.modulus. lia.
Qed.

Lemma add_one_moves (x : Z) : Int.add x 1 <> x.
Proof.
  unfold Int.add. destruct (wrap_congruent (x + 1)) as (q & -> & _).
  unfold Int.modulus. lia.
Qed.

Lemma add_sub_one (x : Z) : Int.in_range x -> Int.add (Int.sub x 1) 1 = x.
Proof.
  intros Hx. unfold Int.add, Int.sub.
  destruct (wrap_congruent (x - 1)) as (q & -> & _).
  destruct (wrap_congruent (x - 1 - Int.modulus * q + 1)) as (q' & -> & Hr).
  unfold Int.in_range, Int.min_int, Int.max_int, Int.modulus in *. lia.
Qed.

Lemma sub_add_one (x : Z) : Int.in_range x -> Int.sub (Int.add x 1) 1 = x.
Proof.
  intros Hx. unfold Int.add, Int.sub.
  destruct (wrap_congruent (x + 1)) as (q & -> & _).
  destruct (wrap_congruent (x + 1 - Int.modulus * q - 1)) as (q' & -> & Hr).
  unfold Int.in_range, Int.min_int, Int.max_int, Int.modulus in *. lia.
Qed.

(** ** The distance *)

Lemma distance_exact (x y hx hy : Z) :
  Z.abs (x - hx) + Z.abs (y - hy) <= Int.max_int ->
  shortestDistanceToHuman x y hx hy = Z.abs (x - hx) + Z.abs (y - hy).
Proof.
  intros Hfit. unfold shortestDistanceToHuman.
  rewrite (sub_exact x hx), (sub_exact y hy) by int_arith.
  rewrite (abs_exact (x - hx)), (abs_exact (y - hy)) by int_arith.
  apply add_exact. int_arith.
Qed.

(** X1. Whenever the Manhattan distance between the two points fits in an
    [int], [shortestDistanceToHuman] returns it: the result is not
    negative, and it is zero exactly when the two points are the same. *)
Theorem distance_is_manhattan (x y hx hy : Z) :
  Z.abs (x - hx) + Z.abs (y - hy) <= Int.max_int ->
  shortestDistanceToHuman x y hx hy = Z.abs (x - hx) + Z.abs (y - hy) /\
  0 <= shortestDistanceToHuman x y hx hy /\
  (shortestDistanceToHuman x y hx hy = 0 <-> x = hx /\ y = hy).
Proof.
  intros Hfit. rewrite (distance_exact x y hx hy Hfit).
  split; [reflexivity |]. split; lia.
Qed.

Lemma distance_is_manhattan_witness :
  shortestDistanceToHuman 2 5 2 7 = 2 /\ shortestDistanceToHuman 2 5 2 2 = 3.
Proof.
  split.
  - destruct (distance_is_manhattan 2 5 2 7) as [Heq _];
      [unfold Int.max_int; simpl; lia | exact Heq].
  - reflexivity.
Defined.

Lemma abs_sub_swap (a b : Z) : Int.abs (Int.sub a b) = Int.abs (Int.sub b a).
Proof.
  unfold Int.abs, Int.sub.
  destruct (wrap_congruent (a - b)) as (q & Hu & Hru).
  destruct (wrap_congruent (b - a)) as (q' & Hv & Hrv).
  assert (Int.wrap (b - a) = - Int.wrap (a - b)
          \/ (Int.wrap (a - b) = Int.min_int /\ Int.wrap (b - a) = Int.min_int))
    as [-> | [-> ->]].
  { unfold Int.in_range, Int.min_int, Int.max_int, Int.modulus in *. lia. }
  - by rewrite Z.abs_opp.
  - reflexivity.
Qed.

(** X2. The distance is symmetric for all values of type [int], the ones
    at which the subtraction wraps around among them: it does not matter
    which of the two points is the character. *)
Theorem distance_symmetric (x y hx hy : Z) :
  shortestDistanceToHuman x y hx hy = shortestDistanceToHuman hx hy x y.
Proof.
  unfold shortestDistanceToHuman.
  by rewrite (abs_sub_swap x hx), (abs_sub_swap y hy).
Qed.

(** ** What the walk and the scan touch *)

Lemma moveCloserToHuman_raw (w : World) (i : nat) (c : Character) :
  gameCharacters w !! i = Some c ->
  moveCloserToHuman i w = Done w
  \/ exists p : Z * Z,
       In p (neighbours (getCurrentPositionX c) (getCurrentPositionY c)) /\
       getCell (theMap w) (fst p) (snd p) = " " /\
       moveCloserToHuman i w = Done (relocate i c p w).
Proof.
  intros Hi. unfold moveCloserToHuman. rewrite (character_Done _ _ _ Hi).
  unfold mbind, outcome_bind. cbv beta iota zeta.
  rewrite (moveUp_relocate w i c Hi), (moveLeft_relocate w i c Hi),
    (moveDown_relocate w i c Hi), (moveRight_relocate w i c Hi).
  unfold neighbours.
  set (x := getCurrentPositionX c). set (y := getCurrentPositionY c).
  destruct (negb _); [| by left].
  lazymatch goal with
  | |- (if ?a && ?b && ?d then _ else _) = _ \/ _ =>
      destruct (a && b && d) eqn:Hcond
  end.
  { apply andb_true_iff in Hcond as [Hcond _].
    apply andb_true_iff in Hcond as [_ Hblank]. apply Ascii.eqb_eq in Hblank.
    right. exists (Int.sub x 1, y). cbn [In fst snd].
    split; [left; reflexivity | split; [exact Hblank | reflexivity]]. }
  clear Hcond.
  lazymatch goal with
  | |- (if ?a && ?b && ?d then _ else _) = _ \/ _ =>
      destruct (a && b && d) eqn:Hcond
  end.
  { apply andb_true_iff in Hcond as [Hcond _].
    apply andb_true_iff in Hcond as [_ Hblank]. apply Ascii.eqb_eq in Hblank.
    right. exists (x, Int.sub y 1). cbn [In fst snd].
    split; [right; left; reflexivity | split; [exact Hblank | reflexivity]]. }
  clear Hcond.
  lazymatch goal with
  | |- (if ?a && ?b && ?d then _ else _) = _ \/ _ =>
      destruct (a && b && d) eqn:Hcond
  end.
  { apply andb_true_iff in Hcond as [Hcond _].
    apply andb_true_iff in Hcond as [_ Hblank]. apply Ascii.eqb_eq in Hblank.
    right. exists (Int.add x 1, y). cbn [In fst snd].
    split; [right; right; left; reflexivity | split; [exact Hblank | reflexivity]]. }
  clear Hcond.
  lazymatch goal with
  | |- (if ?a && ?b && ?d then _ else _) = _ \/ _ =>
      destruct (a && b && d) eqn:Hcond
  end.
  { apply andb_true_iff in Hcond as [Hcond _].
    apply andb_true_iff in Hcond as [_ Hblank]. apply Ascii.eqb_eq in Hblank.
    right. exists (x, Int.add y 1). cbn [In fst snd].
    split; [right; right; right; left; reflexivity
           | split; [exact Hblank | reflexivity]]. }
  by left.
Qed.

Lemma canAttack_targets (w : World) (i : nat) (c : Character) :
  gameCharacters w !! i = Some c ->
  canAttackOneAdjacentCharacter i w = Done w
  \/ exists p : Z * Z,
       In p (neighbours (getCurrentPositionX c) (getCurrentPositionY c)) /\
       canAttackOneAdjacentCharacter i w
       = attackCharacterAtPosition i (fst p) (snd p) w.
Proof.
  intros Hi. unfold canAttackOneAdjacentCharacter.
  rewrite (character_Done _ _ _ Hi). unfold mbind, outcome_bind.
  cbv beta iota zeta. unfold neighbours.
  set (x := getCurrentPositionX c). set (y := getCurrentPositionY c).
  lazymatch goal with
  | |- (if ?b then _ else _) = _ \/ _ => destruct b
  end.
  { right. exists (Int.sub x 1, y). cbn [In fst snd].
    split; [left; reflexivity | reflexivity]. }
  lazymatch goal with
  | |- (if ?b then _ else _) = _ \/ _ => destruct b
  end.
  { right. exists (x, Int.sub y 1). cbn [In fst snd].
    split; [right; left; reflexivity | reflexivity]. }
  lazymatch goal with
  | |- (if ?b then _ else _) = _ \/ _ => destruct b
  end.
  { right. exists (Int.add x 1, y). cbn [In fst snd].
    split; [right; right; left; reflexivity | reflexivity]. }
  lazymatch goal with
  | |- (if ?b then _ else _) = _ \/ _ => destruct b
  end.
  { right. exists (x, Int.add y 1). cbn [In fst snd].
    split; [right; right; right; left; reflexivity | reflexivity]. }
  by left.
Qed.

Lemma neighbour_is_elsewhere (x y : Z) (p : Z * Z) :
  In p (neighbours x y) -> p <> (x, y).
Proof.
  unfold neighbours. cbn [In].
  intros [<- | [<- | [<- | [<- | []]]]] [= H].
  - by apply (sub_one_moves x).
  - by apply (sub_one_moves y).
  - by apply (add_one_moves x).
  - by apply (add_one_moves y).
Qed.

Lemma canAttack_frame (w w' : World) (i : nat) (c : Character) :
  gameCharacters w !! i = Some c ->
  canAttackOneAdjacentCharacter i w = Done w' ->
  w' = w
  \/ exists (p : Z * Z) (j : nat) (t : Character),
       In p (neighbours (getCurrentPositionX c) (getCurrentPositionY c)) /\
       lastAt (fst p) (snd p) (gameCharacters w) j t /\ j <> i /\
       w' = withCharacter j (sufferAttack t) w.
Proof.
  intros Hi Hrun.
  destruct (canAttack_targets w i c Hi) as [Hstay | (p & Hp & Hatt)].
  - left. congruence.
  - right. rewrite Hatt in Hrun.
    apply attack_Done_inv in Hrun as (j & t & Hlast & ->).
    exists p, j, t. split; [exact Hp |]. split; [exact Hlast |].
    split; [| reflexivity].
    intros ->. destruct Hlast as (Hj & [Hx Hy] & _).
    assert (t = c) as -> by congruence.
    apply (neighbour_is_elsewhere _ _ p Hp). destruct p. simpl in *. congruence.
Qed.

(** X3. The scan attacks at most one character: when it completes, either
    the world is as it was, or one entry of the registry, recorded on one
    of the four neighbouring cells (the last such entry, for its cell) and
    never the attacker, has suffered one attack.  The attacker's own entry,
    the map and the console are as they were. *)
Theorem scan_attacks_one_neighbour (w w' : World) (i : nat) (c : Character) :
  gameCharacters w !! i = Some c ->
  canAttackOneAdjacentCharacter i w = Done w' ->
  gameCharacters w' !! i = Some c /\
  theMap w' = theMap w /\ console w' = console w /\
  (w' = w
   \/ exists (p : Z * Z) (j : nat) (t : Character),
        In p (neighbours (getCurrentPositionX c) (getCurrentPositionY c)) /\
        lastAt (fst p) (snd p) (gameCharacters w) j t /\ j <> i /\
        w' = withCharacter j (sufferAttack t) w).
Proof.
  intros Hi Hrun.
  pose proof (canAttack_frame w w' i c Hi Hrun) as Hframe.
  split; [| split; [| split]]; [| | | exact Hframe].
  - destruct Hframe as [-> | (p & j & t & _ & _ & Hne & ->)]; [exact Hi |].
    simpl. by rewrite list_lookup_insert_ne.
  - by destruct Hframe as [-> | (p & j & t & _ & _ & _ & ->)].
  - by destruct Hframe as [-> | (p & j & t & _ & _ & _ & ->)].
Qed.

Lemma scan_attacks_one_neighbour_witness :
  canAttackOneAdjacentCharacter 0 duel
  = Done (withCharacter 1 (setHitPoints 0 hostile) duel) /\
  gameCharacters (withCharacter 1 (setHitPoints 0 hostile) duel) !! 0%nat
  = Some duellist.
Proof.
  assert (canAttackOneAdjacentCharacter 0 duel
          = Done (withCharacter 1 (setHitPoints 0 hostile) duel)) as Hrun
    by (vm_compute; reflexivity).
  split; [exact Hrun |].
  destruct (scan_attacks_one_neighbour duel _ 0 duellist eq_refl Hrun)
    as (Hself & _).
  exact Hself.
Defined.

Lemma relocate_other_cells (w : World) (i : nat) (c : Character) (p : Z * Z)
    (a b : Z) :
  (a, b) <> position c -> (a, b) <> p ->
  getCell (theMap (relocate i c p w)) a b = getCell (theMap w) a b.
Proof.
  intros Hold Hnew. destruct p as [px py].
  change (theMap (relocate i c (px, py) w))
    with (setCell px py (getTypeOnMap c)
            (clearCell (getCurrentPositionX c) (getCurrentPositionY c) (theMap w))).
  rewrite getCell_setCell_other, getCell_clearCell_other;
    [reflexivity | |]; intros Heq; [apply Hold | apply Hnew]; by symmetry.
Qed.

Lemma walk_frame (w : World) (i : nat) (c : Character) :
  gameCharacters w !! i = Some c ->
  exists (w1 : World) (c1 : Character),
    moveCloserToHuman i w = Done w1 /\
    gameCharacters w1 !! i = Some c1 /\
    gameCharacters w1 = <[i := c1]> (gameCharacters w) /\
    getHitPoints c1 = getHitPoints c /\ getTypeOnMap c1 = getTypeOnMap c /\
    strategy c1 = strategy c /\
    (position c1 = position c
     \/ In (position c1)
          (neighbours (getCurrentPositionX c) (getCurrentPositionY c))) /\
    console w1 = console w /\
    getMapWidth (theMap w1) = getMapWidth (theMap w) /\
    getMapLength (theMap w1) = getMapLength (theMap w) /\
    getHumanPosition (theMap w1) = getHumanPosition (theMap w) /\
    forall a b : Z,
      (a, b) <> position c -> (a, b) <> position c1 ->
      getCell (theMap w1) a b = getCell (theMap w) a b.
Proof.
  intros Hi.
  assert (i < length (gameCharacters w))%nat as Hlen by (by eapply lookup_lt_Some).
  destruct (moveCloserToHuman_raw w i c Hi) as [Hstay | (p & Hp & _ & Hgo)].
  - exists w, c. rewrite list_insert_id by exact Hi. repeat split; auto.
  - destruct p as [px py].
    exists (relocate i c (px, py) w),
      (setCurrentPositionY py (setCurrentPositionX px c)).
    split; [exact Hgo |].
    split; [simpl; by apply list_lookup_insert_eq |].
    repeat split; auto.
    intros a b Hold Hnew. by apply relocate_other_cells.
Qed.

(** X4. What one turn leaves alone.  When [execute] completes, the acting
    character has the hit points, symbol and strategy it had and stands
    where it stood or on one of the four neighbouring cells; the registry
    has the length it had; width, length and human position of the map are
    unchanged; every cell other than the one it left and the one it
    entered reads as before; and the console has gained the character,
    as it was before the turn, exactly when its hit points were positive. *)
Theorem turn_frame (w w' : World) (i : nat) (c : Character) :
  gameCharacters w !! i = Some c ->
  execute i w = Done w' ->
  exists c' : Character,
    gameCharacters w' !! i = Some c' /\
    getHitPoints c' = getHitPoints c /\ getTypeOnMap c' = getTypeOnMap c /\
    strategy c' = strategy c /\
    (position c' = position c
     \/ In (position c')
          (neighbours (getCurrentPositionX c) (getCurrentPositionY c))) /\
    length (gameCharacters w') = length (gameCharacters w) /\
    getMapWidth (theMap w') = getMapWidth (theMap w) /\
    getMapLength (theMap w') = getMapLength (theMap w) /\
    getHumanPosition (theMap w') = getHumanPosition (theMap w) /\
    console w' = (if 0 <? getHitPoints c then console w ++ [c] else console w) /\
    forall a b : Z,
      (a, b) <> position c -> (a, b) <> position c' ->
      getCell (theMap w') a b = getCell (theMap w) a b.
Proof.
  intros Hi Hrun. unfold execute in Hrun.
  rewrite (character_Done _ _ _ Hi) in Hrun.
  unfold mbind at 1, outcome_bind at 1 in Hrun. cbv beta iota in Hrun.
  destruct (0 <? getHitPoints c).
  - cbv zeta in Hrun.
    destruct (walk_frame (displayCharacter c w) i c Hi)
      as (w1 & c1 & Hgo & Hc1 & Hreg1 & Hhp & Hsym & Hstr & Hpos & Hcon & HW & HL
          & HH & Hcells).
    rewrite Hgo in Hrun. unfold mbind, outcome_bind in Hrun.
    assert (gameCharacters w' !! i = Some c1 /\ theMap w' = theMap w1 /\
            console w' = console w1 /\
            length (gameCharacters w') = length (gameCharacters w1))
      as (Hc' & Hmap & Hcon' & Hlen).
    { destruct (canAttack_frame w1 w' i c1 Hc1 Hrun)
        as [-> | (p & j & t & _ & _ & Hne & ->)]; [auto |].
      simpl. rewrite list_lookup_insert_ne by exact Hne.
      by rewrite length_insert. }
    exists c1. rewrite Hmap, Hcon', Hlen, Hreg1, length_insert.
    repeat split; auto.
  - injection Hrun as <-. exists c. repeat split; auto.
Qed.

Lemma turn_frame_witness :
  exists c' : Character,
    gameCharacters (withCharacter 1 (setHitPoints 0 hostile)
                      (displayCharacter duellist duel)) !! 0%nat = Some c' /\
    getHitPoints c' = getHitPoints duellist.
Proof.
  destruct (turn_frame duel _ 0 duellist eq_refl duel_scenario)
    as (c' & Hc' & Hhp & _).
  exists c'. split; [exact Hc' | exact Hhp].
Defined.

(** ** Opposite moves *)

Lemma relocate_back (w : World) (i : nat) (c : Character) (p : Z * Z) :
  gameCharacters w !! i = Some c ->
  getCell (theMap w) (getCurrentPositionX c) (getCurrentPositionY c)
  = getTypeOnMap c ->
  getCell (theMap w) (fst p) (snd p) = " " ->
  sameView w
    (relocate i (setCurrentPositionY (snd p) (setCurrentPositionX (fst p) c))
       (position c) (relocate i c p w)).
Proof.
  intros Hi Hshown Hblank. destruct p as [px py]. cbn [fst snd] in *.
  split.
  { simpl. rewrite list_insert_insert_eq.
    apply list_insert_id. rewrite Hi. by destruct c. }
  do 4 (split; [reflexivity |]).
  intros a b.
  change (getCell
            (setCell (getCurrentPositionX c) (getCurrentPositionY c) (getTypeOnMap c)
               (clearCell px py
                  (setCell px py (getTypeOnMap c)
                     (clearCell (getCurrentPositionX c) (getCurrentPositionY c)
                        (theMap w))))) a b
          = getCell (theMap w) a b).
  destruct (decide ((getCurrentPositionX c, getCurrentPositionY c) = (a, b)))
    as [Heq | Hne].
  { injection Heq as <- <-. by rewrite getCell_setCell_same. }
  rewrite getCell_setCell_other by exact Hne.
  destruct (decide ((px, py) = (a, b))) as [Heq | Hne'].
  { injection Heq as <- <-. by rewrite getCell_clearCell_same. }
  rewrite getCell_clearCell_other, getCell_setCell_other, getCell_clearCell_other
    by assumption.
  reflexivity.
Qed.

(** X5. Opposite primitives undo each other.  For a character whose cell
    shows its symbol, [moveUp] followed by [moveDown] (and [moveDown] by
    [moveUp], [moveLeft] by [moveRight], [moveRight] by [moveLeft]) gives a
    world that reads as the one before, registry, console and every cell,
    provided the cell visited was blank.  The coordinates may be any
    values of type [int]: the two wrap-arounds cancel. *)
Theorem opposite_moves_undo (w : World) (i : nat) (c : Character) :
  gameCharacters w !! i = Some c ->
  Int.in_range (getCurrentPositionX c) ->
  Int.in_range (getCurrentPositionY c) ->
  getCell (theMap w) (getCurrentPositionX c) (getCurrentPositionY c)
  = getTypeOnMap c ->
  let x := getCurrentPositionX c in
  let y := getCurrentPositionY c in
  (getCell (theMap w) (Int.sub x 1) y = " " ->
   exists w2 : World,
     andThen (moveUp i) (moveDown i) w = Done w2 /\ sameView w w2) /\
  (getCell (theMap w) (Int.add x 1) y = " " ->
   exists w2 : World,
     andThen (moveDown i) (moveUp i) w = Done w2 /\ sameView w w2) /\
  (getCell (theMap w) x (Int.sub y 1) = " " ->
   exists w2 : World,
     andThen (moveLeft i) (moveRight i) w = Done w2 /\ sameView w w2) /\
  (getCell (theMap w) x (Int.add y 1) = " " ->
   exists w2 : World,
     andThen (moveRight i) (moveLeft i) w = Done w2 /\ sameView w w2).
Proof.
  intros Hi Hx Hy Hshown x y.
  assert (i < length (gameCharacters w))%nat as Hlen by (by eapply lookup_lt_Some).
  assert (forall p : Z * Z,
            gameCharacters (relocate i c p w) !! i
            = Some (setCurrentPositionY (snd p) (setCurrentPositionX (fst p) c)))
    as Hmoved.
  { intros p. simpl. by apply list_lookup_insert_eq. }
  repeat split; intros Hblank; eexists; unfold andThen.
  - rewrite (moveUp_relocate w i c Hi). unfold mbind, outcome_bind.
    rewrite (moveDown_relocate _ i _ (Hmoved _)). cbn [fst snd].
    change (getCurrentPositionX (setCurrentPositionY _ (setCurrentPositionX ?a _)))
      with a.
    change (getCurrentPositionY (setCurrentPositionY ?b _)) with b.
    rewrite (add_sub_one _ Hx).
    split; [reflexivity | by apply (relocate_back w i c (Int.sub x 1, y))].
  - rewrite (moveDown_relocate w i c Hi). unfold mbind, outcome_bind.
    rewrite (moveUp_relocate _ i _ (Hmoved _)). cbn [fst snd].
    change (getCurrentPositionX (setCurrentPositionY _ (setCurrentPositionX ?a _)))
      with a.
    change (getCurrentPositionY (setCurrentPositionY ?b _)) with b.
    rewrite (sub_add_one _ Hx).
    split; [reflexivity | by apply (relocate_back w i c (Int.add x 1, y))].
  - rewrite (moveLeft_relocate w i c Hi). unfold mbind, outcome_bind.
    rewrite (moveRight_relocate _ i _ (Hmoved _)). cbn [fst snd].
    change (getCurrentPositionX (setCurrentPositionY _ (setCurrentPositionX ?a _)))
      with a.
    change (getCurrentPositionY (setCurrentPositionY ?b _)) with b.
    rewrite (add_sub_one _ Hy).
    split; [reflexivity | by apply (relocate_back w i c (x, Int.sub y 1))].
  - rewrite (moveRight_relocate w i c Hi). unfold mbind, outcome_bind.
    rewrite (moveLeft_relocate _ i _ (Hmoved _)). cbn [fst snd].
    change (getCurrentPositionX (setCurrentPositionY _ (setCurrentPositionX ?a _)))
      with a.
    change (getCurrentPositionY (setCurrentPositionY ?b _)) with b.
    rewrite (sub_add_one _ Hy).
    split; [reflexivity | by apply (relocate_back w i c (x, Int.add y 1))].
Qed.

Lemma opposite_moves_undo_witness :
  exists w2 : World,
    andThen (moveLeft 0) (moveRight 0) duel = Done w2 /\ sameView duel w2.
Proof.
  destruct (opposite_moves_undo duel 0 duellist) as (_ & _ & Hback & _).
  - reflexivity.
  - unfold Int.in_range, Int.min_int, Int.max_int; simpl; lia.
  - unfold Int.in_range, Int.min_int, Int.max_int; simpl; lia.
  - reflexivity.
  - apply Hback. reflexivity.
Defined.

(** ** Every step of the walk gains ground *)

Lemma moveCloserToHuman_steps_closer (w : World) (i : nat) (c : Character) :
  gameCharacters w !! i = Some c ->
  intSized (theMap w) ->
  inBounds (theMap w) (getCurrentPositionX c) (getCurrentPositionY c) ->
  moveCloserToHuman i w = Done w
  \/ exists p : Z * Z,
       moveCloserToHuman i w = Done (relocate i c p w) /\
       In p (candidates (getCurrentPositionX c) (getCurrentPositionY c)) /\
       inBounds (theMap w) (fst p) (snd p) /\
       computedDistance (theMap w) (fst p) (snd p)
       <= computedDistance (theMap w) (getCurrentPositionX c)
            (getCurrentPositionY c).
Proof.
  intros Hi [HW HL] [Hx Hy].
  unfold moveCloserToHuman. rewrite (character_Done _ _ _ Hi).
  unfold mbind, outcome_bind. cbv beta iota zeta.
  rewrite (moveUp_relocate w i c Hi), (moveLeft_relocate w i c Hi),
    (moveDown_relocate w i c Hi), (moveRight_relocate w i c Hi).
  unfold inBounds, candidates, computedDistance.
  set (x := getCurrentPositionX c) in *. set (y := getCurrentPositionY c) in *.
  set (W := getMapWidth (theMap w)) in *. set (L := getMapLength (theMap w)) in *.
  assert (Int.sub x 1 = x - 1) as -> by (apply sub_exact; int_arith).
  assert (Int.sub y 1 = y - 1) as -> by (apply sub_exact; int_arith).
  assert (Int.add x 1 = x + 1) as -> by (apply add_exact; int_arith).
  assert (Int.add y 1 = y + 1) as -> by (apply add_exact; int_arith).
  assert (Int.sub W 1 = W - 1) as -> by (apply sub_exact; int_arith).
  assert (Int.sub L 1 = L - 1) as -> by (apply sub_exact; int_arith).
  destruct (negb _); [| by left].
  repeat match goal with
  | |- context [if ?a && ?b && ?d then _ else _] =>
      let H := fresh "Hcond" in
      destruct (a && b && d) eqn:H;
      [ apply andb_true_iff in H as [H ?Hcloser];
        apply andb_true_iff in H as [?Hbound _];
        apply Z.ltb_lt in Hbound; apply Z.leb_le in Hcloser;
        right; eexists; split; [reflexivity |];
        cbn [fst snd In]; split; [tauto | split; [lia | assumption]]
      | clear H ]
  end.
  by left.
Qed.

(** X6. Every step of the walk gains ground.  For a character on the grid
    whose Manhattan distance to the point [(hx, hx)] it heads for leaves
    room in an [int], [moveCloserToHuman] either leaves the world as it is
    or puts the character exactly one step nearer to that point: a step
    that keeps the distance, which the test [<=] of the source would
    admit, does not exist. *)
Theorem walk_step_gains_one (w : World) (i : nat) (c : Character) :
  gameCharacters w !! i = Some c ->
  intSized (theMap w) ->
  inBounds (theMap w) (getCurrentPositionX c) (getCurrentPositionY c) ->
  let hx := vec_at (getHumanPosition (theMap w)) 0 in
  let gap (a : Character) :=
    Z.abs (getCurrentPositionX a - hx) + Z.abs (getCurrentPositionY a - hx) in
  gap c < Int.max_int ->
  exists (w1 : World) (c1 : Character),
    moveCloserToHuman i w = Done w1 /\
    gameCharacters w1 !! i = Some c1 /\
    ((w1 = w /\ c1 = c) \/ gap c1 = gap c - 1).
Proof.
  intros Hi Hsz Hin hx gap Hfit.
  destruct (moveCloserToHuman_steps_closer w i c Hi Hsz Hin)
    as [Hstay | (p & Hgo & Hp & _ & Hcloser)].
  - exists w, c. auto.
  - destruct (relocate_character w i c p Hi) as (c1 & Hc1 & Hpos & _).
    exists (relocate i c p w), c1. split; [exact Hgo |]. split; [exact Hc1 |].
    right. destruct p as [px py]. injection Hpos as Hpx Hpy.
    subst gap. cbv beta in Hfit |- *. rewrite Hpx, Hpy. cbn [fst snd] in Hcloser.
    unfold computedDistance in Hcloser. fold hx in Hcloser.
    assert (Z.abs (px - hx) + Z.abs (py - hx) <= Int.max_int) as Hfit'.
    { simpl in Hp. destruct Hp as [Hp | [Hp | [Hp | [Hp | []]]]];
        injection Hp as <- <-; clear - Hfit; lia. }
    rewrite (distance_exact px py hx hx Hfit') in Hcloser.
    rewrite (distance_exact _ _ hx hx (Z.lt_le_incl _ _ Hfit)) in Hcloser.
    simpl in Hp. destruct Hp as [Hp | [Hp | [Hp | [Hp | []]]]];
      injection Hp as <- <-; clear - Hcloser; lia.
Qed.

Lemma walk_step_gains_one_witness :
  exists (w1 : World) (c1 : Character),
    moveCloserToHuman 0 chase = Done w1 /\
    gameCharacters w1 !! 0%nat = Some c1 /\
    ((w1 = chase /\ c1 = pursuer)
     \/ Z.abs (getCurrentPositionX c1 - 2) + Z.abs (getCurrentPositionY c1 - 2)
        = 3 - 1).
Proof.
  apply (walk_step_gains_one chase 0 pursuer).
  - reflexivity.
  - exact chase_intSized.
  - exact chase_inBounds.
  - unfold Int.max_int; simpl; lia.
Defined.

(** ** What the scan does *)

(** X7. The scan as the source runs it.  For a character on the grid of a
    map that shows characters on cells of the grid only, the scan attacks
    the first of the neighbours up, left, down (in that order) that is a
    cell of the grid and shows 'S', 'C' or 'O', and nobody when there is
    none: the fourth neighbour [(x, y + 1)] is never attacked, whatever it
    shows. *)
Theorem scan_attacks_first_of_three (w : World) (i : nat) (c : Character) :
  gameCharacters w !! i = Some c ->
  intSized (theMap w) ->
  inBounds (theMap w) (getCurrentPositionX c) (getCurrentPositionY c) ->
  shownOnGridOnly (theMap w) ->
  canAttackOneAdjacentCharacter i w =
  match scanTarget (theMap w) (getCurrentPositionX c) (getCurrentPositionY c) with
  | Some p => attackCharacterAtPosition i (fst p) (snd p) w
  | None => Done w
  end.
Proof.
  intros Hi [HW HL] Hin Hshown. pose proof Hin as [Hx Hy].
  unfold canAttackOneAdjacentCharacter. rewrite (character_Done _ _ _ Hi).
  unfold mbind, outcome_bind. cbv beta iota zeta.
  unfold scanTarget, visible. cbn [List.find fst snd].
  rewrite (inBoundsb_up _ _ _ Hin), (inBoundsb_left _ _ _ Hin),
    (inBoundsb_down _ _ _ Hin).
  repeat match goal with
  | |- context [Ascii.eqb ?s "S" || Ascii.eqb ?s "C" || Ascii.eqb ?s "O"] =>
      change (Ascii.eqb s "S" || Ascii.eqb s "C" || Ascii.eqb s "O")
        with (attackable s)
  end.
  set (x := getCurrentPositionX c) in *. set (y := getCurrentPositionY c) in *.
  set (W := getMapWidth (theMap w)) in *. set (L := getMapLength (theMap w)) in *.
  assert (Int.sub x 1 = x - 1) as -> by (apply sub_exact; int_arith).
  assert (Int.sub y 1 = y - 1) as -> by (apply sub_exact; int_arith).
  assert (Int.add x 1 = x + 1) as -> by (apply add_exact; int_arith).
  assert (Int.sub W 1 = W - 1) as -> by (apply sub_exact; int_arith).
  assert (attackable (getCell (theMap w) x (y - 1)) = true -> (0 <? y) = true)
    as Hleft.
  { intros Hatt. apply Hshown in Hatt as [_ [Hlow _]]. apply Z.ltb_lt. lia. }
  destruct (attackable (getCell (theMap w) x (y - 1))); destruct (0 <? y);
    try (specialize (Hleft eq_refl); discriminate Hleft); clear Hleft;
    rewrite ?andb_false_r; cbn [andb];
    destruct ((0 <? x) && attackable (getCell (theMap w) (x - 1) y));
    try reflexivity;
    destruct ((x <? W - 1) && attackable (getCell (theMap w) (x + 1) y));
    reflexivity.
Qed.

Lemma shownOnGridOnly_duel : shownOnGridOnly (theMap duel).
Proof.
  intros a b Hatt. unfold getCell in Hatt. simpl in Hatt.
  destruct (decide ((3, 3) = (a, b))) as [Heq | Hne].
  { injection Heq as <- <-. unfold inBounds; simpl; lia. }
  rewrite lookup_insert_ne in Hatt by exact Hne.
  destruct (decide ((2, 3) = (a, b))) as [Heq | Hne'].
  { injection Heq as <- <-. unfold inBounds; simpl; lia. }
  rewrite lookup_insert_ne in Hatt by exact Hne'.
  rewrite lookup_empty in Hatt. discriminate Hatt.
Qed.

Lemma scan_attacks_first_of_three_witness :
  scanTarget (theMap duel) 3 3 = Some (2, 3) /\
  canAttackOneAdjacentCharacter 0 duel = attackCharacterAtPosition 0 2 3 duel.
Proof.
  split; [reflexivity |].
  apply (scan_attacks_first_of_three duel 0 duellist).
  - reflexivity.
  - exact duel_intSized.
  - apply (duel_allOnGrid 0%nat duellist). reflexivity.
  - exact shownOnGridOnly_duel.
Defined.

(** ** Turn after turn *)

Lemma relocate_entries (w : World) (i : nat) (c : Character) (p : Z * Z)
    (k : nat) (ck : Character) :
  gameCharacters w !! i = Some c ->
  gameCharacters (relocate i c p w) !! k = Some ck ->
  (k = i /\ ck = setCurrentPositionY (snd p) (setCurrentPositionX (fst p) c))
  \/ (k <> i /\ gameCharacters w !! k = Some ck).
Proof.
  intros Hi Hk. simpl in Hk.
  assert (i < length (gameCharacters w))%nat as Hlen by (by eapply lookup_lt_Some).
  destruct (decide (i = k)) as [<- | Hne].
  - rewrite list_lookup_insert_eq in Hk by exact Hlen. left. split; congruence.
  - rewrite list_lookup_insert_ne in Hk by exact Hne. right. auto.
Qed.

Lemma orderly_relocate (w : World) (i : nat) (c : Character) (p : Z * Z) :
  orderly w -> gameCharacters w !! i = Some c ->
  inBounds (theMap w) (fst p) (snd p) ->
  getCell (theMap w) (fst p) (snd p) = " " ->
  orderly (relocate i c p w).
Proof.
  intros (Hone & Hgrid & Hsz & Hshow) Hi Hp Hblank.
  assert (forall (k : nat) (ck : Character),
            gameCharacters w !! k = Some ck -> position ck <> p) as Hfree.
  { intros k ck Hk Hpos. destruct (Hshow k ck Hk) as [_ Hcell].
    apply Hcell. destruct p. injection Hpos as -> ->. exact Hblank. }
  split; [| split; [by apply relocate_allOnGrid | split; [exact Hsz |]]].
  - intros j k cj ck Hj Hk Hpos.
    apply (relocate_entries w i c p _ _ Hi) in Hj as [[-> ->] | [Hnj Hj]];
      apply (relocate_entries w i c p _ _ Hi) in Hk as [[-> ->] | [Hnk Hk]].
    + reflexivity.
    + exfalso. apply (Hfree k ck Hk). rewrite <- Hpos. by destruct p.
    + exfalso. apply (Hfree j cj Hj). rewrite Hpos. by destruct p.
    + by apply (Hone j k cj ck).
  - intros k ck Hk.
    apply (relocate_entries w i c p _ _ Hi) in Hk as [[-> ->] | [Hnk Hk]].
    + destruct (Hshow i c Hi) as [Hsym _]. split; [exact Hsym |].
      destruct p as [px py].
      change (getCell (setCell px py (getTypeOnMap c)
                         (clearCell (getCurrentPositionX c)
                            (getCurrentPositionY c) (theMap w))) px py <> " ").
      by rewrite getCell_setCell_same.
    + destruct (Hshow k ck Hk) as [Hsym Hcell]. split; [exact Hsym |].
      rewrite relocate_other_cells; [exact Hcell | |].
      * intros Heq. apply Hnk. by apply (Hone k i ck c).
      * intros Heq. by apply (Hfree k ck Hk).
Qed.

Lemma sufferAttack_not_blank (t : Character) :
  getTypeOnMap t <> " " -> getTypeOnMap (sufferAttack t) <> " ".
Proof.
  unfold sufferAttack. destruct (Ascii.eqb _ _); [discriminate | auto].
Qed.

Lemma orderly_attack (w : World) (j : nat) (t : Character) :
  orderly w -> gameCharacters w !! j = Some t ->
  orderly (withCharacter j (sufferAttack t) w).
Proof.
  intros (Hone & Hgrid & Hsz & Hshow) Hj.
  assert (j < length (gameCharacters w))%nat as Hlen by (by eapply lookup_lt_Some).
  assert (forall (k : nat) (ck : Character),
            gameCharacters (withCharacter j (sufferAttack t) w) !! k = Some ck ->
            exists ck0 : Character,
              gameCharacters w !! k = Some ck0 /\ position ck = position ck0 /\
              (getTypeOnMap ck0 <> " " -> getTypeOnMap ck <> " ")) as Hentry.
  { intros k ck Hk. simpl in Hk. destruct (decide (j = k)) as [<- | Hne].
    - rewrite list_lookup_insert_eq in Hk by exact Hlen. injection Hk as <-.
      exists t. split; [exact Hj |]. split; [| apply sufferAttack_not_blank].
      unfold position. by destruct (sufferAttack_position t) as [-> ->].
    - rewrite list_lookup_insert_ne in Hk by exact Hne. exists ck. auto. }
  split; [| split; [| split; [exact Hsz |]]].
  - intros k l ck cl Hk Hl Hpos.
    apply Hentry in Hk as (ck0 & Hk & Hpk & _).
    apply Hentry in Hl as (cl0 & Hl & Hpl & _).
    apply (Hone k l ck0 cl0 Hk Hl). congruence.
  - intros k ck Hk. apply Hentry in Hk as (ck0 & Hk & Hpk & _).
    injection Hpk as -> ->. by apply (Hgrid k ck0).
  - intros k ck Hk. apply Hentry in Hk as (ck0 & Hk & Hpk & Hsym).
    destruct (Hshow k ck0 Hk) as [Hsym0 Hcell]. split; [by apply Hsym |].
    injection Hpk as -> ->. exact Hcell.
Qed.

Lemma orderly_execute (w w' : World) (i : nat) :
  orderly w -> execute i w = Done w' -> orderly w'.
Proof.
  intros Hord Hrun. unfold execute, character in Hrun.
  destruct (gameCharacters w !! i) as [c|] eqn:Hi; [| discriminate Hrun].
  unfold mbind at 1, outcome_bind at 1 in Hrun. cbv beta iota in Hrun.
  destruct (0 <? getHitPoints c); [| by injection Hrun as <-].
  cbv zeta in Hrun. set (w0 := displayCharacter c w) in *.
  assert (orderly w0) as Hord0 by exact Hord.
  assert (gameCharacters w0 !! i = Some c) as Hi0 by exact Hi.
  pose proof Hord0 as (_ & Hgrid & Hsz & _).
  assert (exists (w1 : World) (c1 : Character),
            moveCloserToHuman i w0 = Done w1 /\ orderly w1 /\
            gameCharacters w1 !! i = Some c1) as (w1 & c1 & Hgo & Hord1 & Hc1).
  { destruct (moveCloserToHuman_steps w0 i c Hi0 Hsz (Hgrid i c Hi0))
      as [Hstay | (p & Hgo & _ & Hp & Hblank)].
    - exists w0, c. auto.
    - destruct (relocate_character w0 i c p Hi0) as (c1 & Hc1 & _).
      exists (relocate i c p w0), c1.
      split; [exact Hgo |]. split; [by apply orderly_relocate | exact Hc1]. }
  rewrite Hgo in Hrun. unfold mbind, outcome_bind in Hrun.
  destruct (canAttack_frame w1 w' i c1 Hc1 Hrun)
    as [-> | (p & j & t & _ & (Hj & _) & _ & ->)]; [exact Hord1 |].
  by apply orderly_attack.
Qed.

(** X8. The characters never stack.  From a world in which no two entries
    record the same cell, all stand on the grid, no symbol is a blank and
    no recorded cell is blank, every sequence of turns that completes
    ends in such a world again; this holds through attacks on friendly
    characters, after which a cell shows 'C' for a character whose symbol
    is 'O'. *)
Theorem turns_keep_order (order : list nat) (w w' : World) :
  orderly w -> turns order w = Done w' -> orderly w'.
Proof.
  revert w. induction order as [|i rest IH]; intros w Hord Hrun; simpl in Hrun.
  - by injection Hrun as <-.
  - destruct (execute i w) as [w1|] eqn:Hturn; [| discriminate Hrun].
    unfold mbind, outcome_bind in Hrun.
    apply (IH w1); [| exact Hrun]. by apply (orderly_execute w w1 i).
Qed.

Lemma parley_orderly : orderly parley.
Proof.
  split; [exact (proj1 parley_consistent) |].
  split; [intros k ck Hk; simpl in Hk; entries; unfold inBounds; simpl; lia |].
  split; [exact duel_intSized |].
  intros k ck Hk. simpl in Hk. entries; split; vm_compute; discriminate.
Qed.

Lemma turns_keep_order_witness :
  exists w' : World, turns [0; 1; 0]%nat parley = Done w' /\ orderly w'.
Proof.
  destruct (turns [0; 1; 0]%nat parley) as [w'|] eqn:Hrun;
    [| vm_compute in Hrun; discriminate Hrun].
  exists w'. split; [reflexivity |].
  apply (turns_keep_order [0; 1; 0]%nat parley w').
  - exact parley_orderly.
  - exact Hrun.
Defined.

Lemma registered_same (w w' : World) :
  theMap w' = theMap w ->
  position <$> gameCharacters w' = position <$> gameCharacters w ->
  registered w -> registered w'.
Proof.
  intros Hmap Hpos Hreg x y Hatt. rewrite Hmap in Hatt.
  destruct (Hreg x y Hatt) as (k & ck & Hk & Hx & Hy).
  destruct (same_position _ _ k ck Hpos Hk) as (ck' & Hk' & Hsame).
  exists k, ck'. split; [exact Hk' |]. injection Hsame as Hsx Hsy.
  unfold standsAt. split; congruence.
Qed.

Lemma allOnGrid_same (w w' : World) :
  theMap w' = theMap w ->
  position <$> gameCharacters w' = position <$> gameCharacters w ->
  allOnGrid w -> allOnGrid w'.
Proof.
  intros Hmap Hpos Hgrid k ck Hk. rewrite Hmap.
  destruct (same_position _ _ k ck (eq_sym Hpos) Hk) as (ck0 & Hk0 & Hsame).
  injection Hsame as <- <-. by apply (Hgrid k ck0).
Qed.

Lemma execute_keeps_registered (w : World) (i : nat) (c : Character) :
  gameCharacters w !! i = Some c ->
  registered w -> allOnGrid w -> intSized (theMap w) ->
  exists w' : World,
    execute i w = Done w' /\
    registered w' /\ allOnGrid w' /\ intSized (theMap w') /\
    length (gameCharacters w') = length (gameCharacters w).
Proof.
  intros Hi Hreg Hgrid Hsz. unfold execute.
  rewrite (character_Done _ _ _ Hi).
  unfold mbind at 1, outcome_bind at 1. cbv beta iota.
  destruct (0 <? getHitPoints c); [| by exists w].
  cbv zeta. set (w0 := displayCharacter c w).
  assert (gameCharacters w0 !! i = Some c) as Hi0 by exact Hi.
  assert (exists (w1 : World) (c1 : Character),
            moveCloserToHuman i w0 = Done w1 /\
            gameCharacters w1 !! i = Some c1 /\
            registered w1 /\ allOnGrid w1 /\ intSized (theMap w1) /\
            length (gameCharacters w1) = length (gameCharacters w))
    as (w1 & c1 & Hgo & Hc1 & Hreg1 & Hgrid1 & Hsz1 & Hlen1).
  { destruct (moveCloserToHuman_steps w0 i c Hi0 Hsz (Hgrid i c Hi))
      as [Hstay | (p & Hgo & _ & Hp & _)].
    - exists w0, c. auto 10.
    - destruct (relocate_character w0 i c p Hi0) as (c1 & Hc1 & _).
      exists (relocate i c p w0), c1.
      split; [exact Hgo |]. split; [exact Hc1 |].
      split; [by apply (relocate_registered w0) |].
      split; [by apply (relocate_allOnGrid w0) |].
      split; [exact Hsz |]. simpl. by rewrite length_insert. }
  rewrite Hgo. unfold mbind, outcome_bind.
  destruct (canAttack_completes w1 i c1 Hc1 Hreg1 Hgrid1) as (w' & Hrun).
  exists w'. split; [exact Hrun |].
  apply canAttack_preserves in Hrun as (Hmap & _ & Hpos).
  split; [by apply (registered_same w1) |].
  split; [by apply (allOnGrid_same w1) |].
  split; [by rewrite Hmap |].
  rewrite <- Hlen1. rewrite <- (length_fmap position (gameCharacters w')).
  rewrite Hpos. apply length_fmap.
Qed.

(** X9. Turn after turn without a wild pointer.  When every cell that
    shows 'S', 'C' or 'O' is the recorded position of an entry of the
    registry and the entries stand on the grid of a map with [int]
    dimensions, every sequence of turns of entries of the registry
    completes, and the world it ends in meets the same conditions: the
    attack never dereferences its unassigned pointer. *)
Theorem turns_complete (order : list nat) (w : World) :
  registered w -> allOnGrid w -> intSized (theMap w) ->
  Forall (fun i : nat => (i < length (gameCharacters w))%nat) order ->
  exists w' : World,
    turns order w = Done w' /\
    registered w' /\ allOnGrid w' /\ intSized (theMap w').
Proof.
  revert w. induction order as [|i rest IH]; intros w Hreg Hgrid Hsz Hvalid.
  - exists w. auto.
  - apply Forall_cons in Hvalid as [Hi Hrest].
    apply lookup_lt_is_Some in Hi as [c Hi].
    destruct (execute_keeps_registered w i c Hi Hreg Hgrid Hsz)
      as (w1 & Hturn & Hreg1 & Hgrid1 & Hsz1 & Hlen).
    destruct (IH w1 Hreg1 Hgrid1 Hsz1) as (w' & Hrun & Hfinal).
    { by rewrite Hlen. }
    exists w'. split; [| exact Hfinal].
    simpl. rewrite Hturn. exact Hrun.
Qed.

Lemma turns_complete_witness :
  exists w' : World, turns [0; 1; 1; 0]%nat duel = Done w' /\ registered w'.
Proof.
  destruct (turns_complete [0; 1; 1; 0]%nat duel) as (w' & Hrun & Hreg & _).
  - exact duel_registered.
  - exact duel_allOnGrid.
  - exact duel_intSized.
  - repeat constructor.
  - exists w'. split; [exact Hrun | exact Hreg].
Defined.

(** ** The walk on an open field *)

Lemma open_field_step (w : World) (i : nat) (c : Character) :
  gameCharacters w !! i = Some c ->
  intSized (theMap w) ->
  inBounds (theMap w) (getCurrentPositionX c) (getCurrentPositionY c) ->
  let h := vec_at (getHumanPosition (theMap w)) 0 in
  inBounds (theMap w) h h ->
  clearAround c (theMap w) ->
  0 < gapTo h c < Int.max_int ->
  exists (w1 : World) (c1 : Character),
    moveCloserToHuman i w = Done w1 /\
    gameCharacters w1 !! i = Some c1 /\
    intSized (theMap w1) /\
    inBounds (theMap w1) (getCurrentPositionX c1) (getCurrentPositionY c1) /\
    vec_at (getHumanPosition (theMap w1)) 0 = h /\
    inBounds (theMap w1) h h /\
    clearAround c1 (theMap w1) /\
    gapTo h c1 = gapTo h c - 1.
Proof.
  intros Hi Hsz Hin h Hh Hclear Hgap.
  pose proof Hsz as [HW HL]. pose proof Hin as [Hx Hy].
  pose proof Hh as [Hhx Hhy]. unfold gapTo in Hgap.
  assert (0 <= h <= Int.max_int) as Hh0 by int_arith.
  assert (computedDistance (theMap w) (getCurrentPositionX c)
            (getCurrentPositionY c) = gapTo h c) as Hdist.
  { unfold computedDistance. fold h. apply distance_exact. lia. }
  assert (exists p : Z * Z,
            firstAdmissible (theMap w) (getCurrentPositionX c)
              (getCurrentPositionY c) = Some p) as (p & Hfirst).
  { destruct (firstAdmissible _ _ _) as [p|] eqn:Hnone; [by exists p |].
    exfalso.
    pose proof (proj1 (firstAdmissible_none _ _ _) Hnone) as Hall.
    assert (forall q : Z * Z,
              In q (candidates (getCurrentPositionX c) (getCurrentPositionY c)) ->
              inBounds (theMap w) (fst q) (snd q) ->
              Z.abs (fst q - h) + Z.abs (snd q - h) <= gapTo h c ->
              False) as Hnot.
    { intros q Hq Hqin Hqgap.
      assert (admissible (theMap w) (getCurrentPositionX c)
                (getCurrentPositionY c) q = true) as Hadm.
      { apply admissible_true. split; [exact Hqin |]. split.
        - apply Hclear. intros Heq. destruct q as [qx qy].
          pose proof (f_equal fst Heq) as Heq1.
          pose proof (f_equal snd Heq) as Heq2.
          unfold position in Heq1, Heq2. cbn [fst snd] in Heq1, Heq2.
          simpl in Hq. clear - Hq Heq1 Heq2.
          destruct Hq as [Hq | [Hq | [Hq | [Hq | []]]]];
            injection Hq as Hq1 Hq2; lia.
        - rewrite Hdist. unfold computedDistance. fold h.
          rewrite distance_exact; [exact Hqgap |].
          unfold gapTo in Hqgap. lia. }
      rewrite (Hall q Hq) in Hadm. discriminate Hadm. }
    unfold gapTo, inBounds, candidates in *. cbn [In fst snd] in Hnot.
    destruct (Z_lt_le_dec h (getCurrentPositionX c)) as [Hup | Hnup].
    { apply (Hnot (getCurrentPositionX c - 1, getCurrentPositionY c));
        cbn [fst snd]; [tauto | lia | lia]. }
    destruct (Z_lt_le_dec h (getCurrentPositionY c)) as [Hleft | Hnleft].
    { apply (Hnot (getCurrentPositionX c, getCurrentPositionY c - 1));
        cbn [fst snd]; [tauto | lia | lia]. }
    destruct (Z_lt_le_dec (getCurrentPositionX c) h) as [Hdown | Hndown].
    { apply (Hnot (getCurrentPositionX c + 1, getCurrentPositionY c));
        cbn [fst snd]; [tauto | lia | lia]. }
    apply (Hnot (getCurrentPositionX c, getCurrentPositionY c + 1));
      cbn [fst snd]; [tauto | lia | lia]. }
  pose proof (moveCloserToHuman_walk w i c Hi Hsz Hin Hh0) as Hgo.
  unfold walk in Hgo. rewrite Hfirst in Hgo.
  apply firstAdmissible_candidate in Hfirst as [Hp Hadm].
  apply admissible_true in Hadm as (Hpin & _ & Hcloser).
  destruct (relocate_character w i c p Hi) as (c1 & Hc1 & Hpos & _).
  exists (relocate i c p w), c1.
  split; [exact Hgo |]. split; [exact Hc1 |]. split; [exact Hsz |].
  destruct p as [px py]. injection Hpos as Hpx Hpy. cbn [fst snd] in *.
  rewrite Hpx, Hpy.
  split; [exact Hpin |]. split; [reflexivity |]. split; [exact Hh |].
  split.
  - intros a b Hne. unfold position in Hne. rewrite Hpx, Hpy in Hne.
    change (theMap (relocate i c (px, py) w))
      with (setCell px py (getTypeOnMap c)
              (clearCell (getCurrentPositionX c) (getCurrentPositionY c) (theMap w))).
    rewrite getCell_setCell_other by (intros Heq; apply Hne; by symmetry).
    destruct (decide ((getCurrentPositionX c, getCurrentPositionY c) = (a, b)))
      as [Heq | Hother].
    + injection Heq as <- <-. apply getCell_clearCell_same.
    + rewrite getCell_clearCell_other by exact Hother.
      apply Hclear. intros Heq. apply Hother. by symmetry.
  - rewrite Hdist in Hcloser. unfold computedDistance in Hcloser.
    fold h in Hcloser. unfold gapTo in *. rewrite Hpx, Hpy.
    assert (Z.abs (px - h) + Z.abs (py - h) <= Int.max_int) as Hfit'.
    { simpl in Hp. destruct Hp as [Hp | [Hp | [Hp | [Hp | []]]]];
        injection Hp as <- <-; clear - Hgap; lia. }
    rewrite (distance_exact px py h h Hfit') in Hcloser.
    simpl in Hp. destruct Hp as [Hp | [Hp | [Hp | [Hp | []]]]];
      injection Hp as <- <-; clear - Hcloser; lia.
Qed.

Lemma arrived_stays (w : World) (i : nat) (c : Character) :
  gameCharacters w !! i = Some c ->
  gapTo (vec_at (getHumanPosition (theMap w)) 0) c = 0 ->
  moveCloserToHuman i w = Done w.
Proof.
  intros Hi Hgap. unfold gapTo in Hgap.
  unfold moveCloserToHuman. rewrite (character_Done _ _ _ Hi).
  unfold mbind, outcome_bind. cbv beta iota zeta.
  assert (shortestDistanceToHuman (getCurrentPositionX c) (getCurrentPositionY c)
            (vec_at (getHumanPosition (theMap w)) 0)
            (vec_at (getHumanPosition (theMap w)) 0) = 0) as ->.
  { rewrite distance_exact; [exact Hgap |]. rewrite Hgap. by vm_compute. }
  reflexivity.
Qed.

Lemma open_field_walks (n : nat) (i : nat) :
  forall (w : World) (c : Character) (h : Z),
    gameCharacters w !! i = Some c ->
    intSized (theMap w) ->
    inBounds (theMap w) (getCurrentPositionX c) (getCurrentPositionY c) ->
    vec_at (getHumanPosition (theMap w)) 0 = h ->
    inBounds (theMap w) h h ->
    clearAround c (theMap w) ->
    gapTo h c = Z.of_nat n -> gapTo h c < Int.max_int ->
    exists (w' : World) (c' : Character),
      walks n i w = Done w' /\ gameCharacters w' !! i = Some c' /\
      gapTo h c' = 0 /\ vec_at (getHumanPosition (theMap w')) 0 = h.
Proof.
  induction n as [|n IH]; intros w c h Hi Hsz Hin Hh Hhin Hclear Hgap Hfit.
  - exists w, c. auto.
  - subst h.
    destruct (open_field_step w i c Hi Hsz Hin Hhin Hclear ltac:(lia))
      as (w1 & c1 & Hgo & Hc1 & Hsz1 & Hin1 & Hh1 & Hhin1 & Hclear1 & Hgap1).
    destruct (IH w1 c1 _ Hc1 Hsz1 Hin1 Hh1 Hhin1 Hclear1 ltac:(lia) ltac:(lia))
      as (w' & c' & Hrun & Hc' & Hzero & Hh').
    exists w', c'. split; [| auto].
    simpl. rewrite Hgo. exact Hrun.
Qed.

(** X10. On an open field the walk arrives.  For a character on a grid
    on which every other cell is blank, with the point [(h, h)] it heads
    for on the grid, as many walks as steps separate it from that point
    bring it there, and a further walk leaves the world as it is. *)
Theorem open_field_walk_arrives (w : World) (i : nat) (c : Character) :
  gameCharacters w !! i = Some c ->
  intSized (theMap w) ->
  inBounds (theMap w) (getCurrentPositionX c) (getCurrentPositionY c) ->
  let h := vec_at (getHumanPosition (theMap w)) 0 in
  inBounds (theMap w) h h ->
  clearAround c (theMap w) ->
  gapTo h c < Int.max_int ->
  exists (w' : World) (c' : Character),
    walks (Z.to_nat (gapTo h c)) i w = Done w' /\
    gameCharacters w' !! i = Some c' /\
    position c' = (h, h) /\
    moveCloserToHuman i w' = Done w'.
Proof.
  intros Hi Hsz Hin h Hhin Hclear Hfit.
  assert (0 <= gapTo h c) as Hnn by (unfold gapTo; lia).
  destruct (open_field_walks (Z.to_nat (gapTo h c)) i w c h Hi Hsz Hin eq_refl
              Hhin Hclear ltac:(lia) Hfit)
    as (w' & c' & Hrun & Hc' & Hzero & Hh').
  exists w', c'. split; [exact Hrun |]. split; [exact Hc' |].
  split.
  - unfold gapTo in Hzero. unfold position. f_equal; lia.
  - apply (arrived_stays w' i c' Hc'). by rewrite Hh'.
Qed.

Lemma field_clear : clearAround walker (theMap field).
Proof.
  intros a b Hne. unfold getCell. simpl.
  rewrite lookup_insert_ne by (intros Heq; apply Hne; by symmetry).
  by rewrite lookup_empty.
Qed.

Lemma open_field_walk_arrives_witness :
  exists (w' : World) (c' : Character),
    walks 4 0 field = Done w' /\
    gameCharacters w' !! 0%nat = Some c' /\ position c' = (2, 2).
Proof.
  destruct (open_field_walk_arrives field 0 walker)
    as (w' & c' & Hrun & Hc' & Hpos & _).
  - reflexivity.
  - split; unfold Int.in_range, Int.min_int, Int.max_int; simpl; lia.
  - unfold inBounds; simpl; lia.
  - unfold inBounds; simpl; lia.
  - exact field_clear.
  - unfold gapTo, Int.max_int; simpl; lia.
  - exists w', c'. split; [exact Hrun |]. split; [exact Hc' | exact Hpos].
Defined.

(** ** Attack after attack *)






